(** * Kademlia node lookup of go-libp2p-kad-dht: [lookup.go]

    A shallow embedding of [tryFormatLoggableKey], [loggableKey] and
    [GetClosestPeers], together with the Go channel the lookup delivers its
    result on, and the properties of the lookup that follow from the code. *)

From Stdlib Require Import ZArith NArith Lia Ascii String List Sorted Permutation.
From stdpp Require Import base list strings gmap sorting.

Local Open Scope string_scope.
Local Open Scope list_scope.

(** ** Values of the Go program *)

(** [peer.ID] is a Go string type; [GetClosestPeers] converts the key to it
    with [peer.ID(key)]. *)
Abbreviation peer := string (only parsing).

(** [kb.ID]: an address of the key space, read as an unsigned integer. *)
Abbreviation ID := N (only parsing).

(** [time.Time] and [time.Duration], in nanoseconds. *)
Abbreviation time := Z (only parsing).
Definition Minute : Z := 60000000000.

(** [context.Context]: the caller's context, or one derived from a parent by
    [context.WithTimeout]. *)
Inductive context : Type :=
| CallerCtx (name : string)
| WithTimeout (parent : context) (d : Z).

(** The error values that occur in [lookup.go]. *)
Inductive error : Type :=
| ErrLoggableKeyEmpty
    (* fmt.Errorf("loggableKey is empty") *)
| ErrLoggableKeyNotPath (k : string)
    (* fmt.Errorf("loggableKey starts with '/' but is not a path: %x", k) *)
| ErrLookupFailure
    (* kb.ErrLookupFailure *)
| ErrOther (msg : string).
    (* an error made by a collaborator: the RPC, the query runner, the context *)

(** [peer.AddrInfo], as [pb.PBPeersToPeerInfos] makes them. *)
Record PeerInfo : Type := { pi_ID : peer; pi_Addrs : list string }.

(** [pb.Message_Peer] and the part of [pb.Message] the lookup reads. *)
Record PBPeer : Type := { pb_Id : string; pb_Addrs : list string }.
Record Message : Type := { CloserPeers : list PBPeer }.

(** [GetCloserPeers] of [pb.Message]: the generated accessor answers nil on
    a nil receiver. *)
Definition GetCloserPeers (m : option Message) : list PBPeer :=
  match m with
  | Some m => CloserPeers m
  | None => []
  end.

(** [peer.Set]: [Peers] is the slice its [Peers()] method returns, in the
    order in which Go happens to iterate the underlying map. *)
Record PeerSet : Type := { Peers : list peer }.

(** [dhtQueryResult], with the two fields [lookup.go] touches. A nil
    [*peer.Set] is [None]. *)
Record dhtQueryResult : Type :=
  { closerPeers : list PeerInfo; queriedSet : option PeerSet }.

(** [routing.QueryEvent], as published by the query function. *)
Inductive QueryEvent : Type :=
| SendingQuery (p : peer)
| PeerResponse (p : peer) (responses : list PeerInfo).

(** [logging.LoggableMap] is a [map[string]interface{}]; the only values
    stored here are strings. *)
Abbreviation LoggableMap := (gmap string string) (only parsing).

(** ** Effects

    Everything the code does to the outside world is recorded, in program
    order, as one event per call. *)
Inductive event : Type :=
| EvEventBegin (name : string) (m : LoggableMap)  (* logger.EventBegin *)
| EvEventDone                                     (* e.Done() *)
| EvDebug (e : error)                             (* logger.Debug(err) *)
| EvDebugf (format : string) (e : error)          (* logger.Debugf(format, err) *)
| EvNearestPeers (a : ID) (count : Z)             (* routingTable.NearestPeers *)
| EvPublish (ctx : context) (q : QueryEvent)      (* routing.PublishQueryEvent *)
| EvFindPeerSingle (ctx : context) (p target : peer) (* dht.findPeerSingle *)
| EvRun (ctx : context) (seeds : list peer)       (* query.Run *)
| EvResetCpl (a : ID) (now : time)                (* ResetCplRefreshedAtForID *)
| EvSend (p : peer)                               (* out <- p *)
| EvCancel                                        (* cancel() *)
| EvClose.                                        (* close(out) *)

(** A computation returns a value or panics, and in both cases leaves the
    events it performed. *)
Inductive M (A : Type) : Type :=
| Ok (a : A) (log : list event)
| Panic (why : string) (log : list event).
Arguments Ok {A} a log.
Arguments Panic {A} why log.

Definition ret {A} (a : A) : M A := Ok a [].

Definition bind {A B} (m : M A) (k : A -> M B) : M B :=
  match m with
  | Ok a l =>
      match k a with
      | Ok b l' => Ok b (l ++ l')
      | Panic w l' => Panic w (l ++ l')
      end
  | Panic w l => Panic w l
  end.

Definition emit (e : event) : M unit := Ok tt [e].
Definition panic {A} (why : string) : M A := Panic why [].

(** The events of a computation, and what a collaborator that cannot panic
    contributes. *)
Definition events {A} (m : M A) : list event :=
  match m with Ok _ l => l | Panic _ l => l end.
Definition call {A} (r : A * list event) : M A := Ok (fst r) (snd r).

Declare Scope go_scope.
Delimit Scope go_scope with go.
Notation "'let*' x := m 'in' k" := (bind m (fun x => k))
  (at level 10, x pattern, m at level 100, k at level 200) : go_scope.
Notation "'do' m ; k" := (bind m (fun _ => k))
  (at level 10, m at level 100, k at level 200) : go_scope.
Local Open Scope go_scope.

(** ** Strings, as Go indexes and slices them *)

Definition len (s : string) : Z := Z.of_nat (String.length s).

(** [s[i]] panics outside [0 <= i < len(s)]. *)
Definition index (s : string) (i : Z) : M ascii :=
  if (i <? 0)%Z then panic "index out of range"
  else match String.get (Z.to_nat i) s with
       | Some c => ret c
       | None => panic "index out of range"
       end.

(** [s[lo:hi]] panics unless [0 <= lo <= hi <= len(s)]. *)
Definition slice (s : string) (lo hi : Z) : M string :=
  if ((0 <=? lo) && (lo <=? hi) && (hi <=? len s))%Z
  then ret (String.substring (Z.to_nat lo) (Z.to_nat (hi - lo)) s)
  else panic "slice bounds out of range".

(** [s[lo:]] *)
Definition slice_from (s : string) (lo : Z) : M string := slice s lo (len s).

(** [strings.IndexByte]: the index of the first [c] in [s], or -1. *)
Fixpoint IndexByte (s : string) (c : ascii) : Z :=
  match s with
  | EmptyString => -1
  | String a s' =>
      if Ascii.eqb a c then 0
      else let r := IndexByte s' c in
           if (r <? 0)%Z then -1 else (r + 1)%Z
  end.

(** ** Lists and channels, as Go has them *)

(** [l[:hi]] panics unless [0 <= hi <= len(l)] (the slices here have no
    spare capacity). *)
Definition slice_to {A} (l : list A) (hi : Z) : M (list A) :=
  if ((0 <=? hi) && (hi <=? Z.of_nat (length l)))%Z
  then ret (take (Z.to_nat hi) l)
  else panic "slice bounds out of range".

(** A [chan peer.ID]: its capacity, the peers waiting in its buffer (oldest
    first) and whether it was closed. *)
Record chan : Type := { cap : Z; buf : list peer; closed : bool }.

(** [make(chan peer.ID, size)] panics on a negative size. *)
Definition make_chan (size : Z) : M chan :=
  if (size <? 0)%Z then panic "makechan: size out of range"
  else ret {| cap := size; buf := []; closed := false |}.

(** ** The query and its runner *)

(** [queryFunc]: what the runner calls for each peer it visits. *)
Definition queryFunc : Type :=
  context -> peer -> M (option dhtQueryResult * option error).

(** [dhtQuery], as [dht.newQuery(key, f)] builds it. *)
Record dhtQuery : Type := { q_key : string; q_qfunc : queryFunc }.

Definition newQuery (key : string) (f : queryFunc) : dhtQuery :=
  {| q_key := key; q_qfunc := f |}.

(** ** Collaborators outside [lookup.go]

    The libraries and the parts of the DHT that [lookup.go] calls are taken
    as they are, behind one interface. *)
Class Collaborators : Type := {
  (* go-cid and go-base32 *)
  Cid : Type;
  cid_Cast : string -> Cid + error;
  cid_String : Cid -> string;
  base32_EncodeToString : string -> string;
  (* go-libp2p-kbucket: the address of a key and of a peer *)
  ConvertKey : string -> ID;
  ConvertPeerID : peer -> ID;
  (* dht.go: the fan-out of a lookup, and the RPC to one peer *)
  AlphaValue : Z;
  findPeerSingle : context -> peer -> peer -> (option Message * option error);
  (* pb: protobuf peers to address infos *)
  PBPeersToPeerInfos : list PBPeer -> list PeerInfo;
  (* time.Now() when the query finishes *)
  time_Now : time;
  (* query.go: the runner. It answers with the result and the error of
     [Run] of [dhtQuery], and with the calls of the query function it made on
     the way, in order; those calls are its only effects. *)
  query_Run : dhtQuery -> context -> list peer ->
              (option dhtQueryResult * option error) * list (context * peer)
}.

Section LoggableKey.
Context `{Collaborators}.

(** Lines 38-46 of [tryFormatLoggableKey]: encode [cstr] as a CID when it is
    one, in base32 otherwise, and print [/proto/enc]. *)
Definition formatKey (proto cstr : string) : string :=
  let encStr :=
    match cid_Cast cstr with
    | inl c => cid_String c
    | inr _ => base32_EncodeToString cstr
    end in
  "/" +:+ proto +:+ "/" +:+ encStr.

Definition tryFormatLoggableKey (k : string) : M (string * option error) :=
  if (len k =? 0)%Z then ret ("", Some ErrLoggableKeyEmpty)
  else
    let* k0 := index k 0 in
    if Ascii.eqb k0 "/" then
      (* it's a path (probably) *)
      let* rest := slice_from k 1 in
      let protoEnd := IndexByte rest "/" in
      if (protoEnd <? 0)%Z then ret (k, Some (ErrLoggableKeyNotPath k))
      else
        let* proto := slice k 1 (protoEnd + 1) in
        let* cstr := slice_from k (protoEnd + 2) in
        ret (formatKey proto cstr, None)
    else
      ret (formatKey "provider" k, None).

Definition loggableKey (k : string) : M LoggableMap :=
  let* (newKey, err) := tryFormatLoggableKey k in
  let* k' := match err with
             | Some e => do emit (EvDebug e); ret k
             | None => ret newKey
             end in
  ret ({[ "key" := k' ]} : LoggableMap).

End LoggableKey.

(** ** Ranking by distance (go-libp2p-kbucket) *)

(** XOR distance between two addresses, as an unsigned integer. *)
Definition distance (a b : ID) : N := N.lxor a b.

(** ** The DHT node *)

(** [kb.RoutingTable], through the one query the lookup makes of it. *)
Record RoutingTable : Type := { NearestPeers : ID -> Z -> list peer }.

(** The fields of [IpfsDHT] that [lookup.go] reads. *)
Record IpfsDHT : Type := { routingTable : RoutingTable; bucketSize : Z }.

(** What a call of [GetClosestPeers] leaves behind: the two results, and the
    goroutine started with [go func() { ... }()], if any. *)
Record lookupCall : Type :=
  { out : option chan; err : option error; spawned : option (M unit) }.

Section Lookup.
Context `{Collaborators}.

(** How far peer [p] is from [target]. *)
Definition peerDistance (target : ID) (p : peer) : N :=
  distance (ConvertPeerID p) target.

(** Modelled from the spec: [kb.SortClosestPeers] lives in go-libp2p-kbucket
    and is not part of [lookup.go]. Section 4.1: sort a set of peers
    ascending by distance to the reference, stable for ties. *)
Fixpoint insertCloser (target : ID) (p : peer) (l : list peer) : list peer :=
  match l with
  | [] => [p]
  | q :: l' =>
      if (peerDistance target p <=? peerDistance target q)%N
      then p :: q :: l'
      else q :: insertCloser target p l'
  end.

Definition SortClosestPeers (peers : list peer) (target : ID) : list peer :=
  foldr (insertCloser target) [] peers.

(** [defer d] in front of [body]: [d] runs when [body] returns, and also
    when it panics. *)
Definition with_defer {A} (d : M unit) (body : M A) : M A :=
  match body with
  | Ok a l =>
      match d with
      | Ok _ l' => Ok a (l ++ l')
      | Panic w l' => Panic w (l ++ l')
      end
  | Panic w l => Panic w (l ++ events d)
  end.

(** [query.Run(ctx, peers)]: the runner, and the query function at every
    peer the runner visits. *)
Fixpoint callAll (q : dhtQuery) (calls : list (context * peer)) : M unit :=
  match calls with
  | [] => ret tt
  | (ctx, p) :: rest => do q_qfunc q ctx p; callAll q rest
  end.

Definition runQuery (q : dhtQuery) (ctx : context) (peers : list peer)
  : M (option dhtQueryResult * option error) :=
  do emit (EvRun ctx peers);
  let '(r, calls) := query_Run q ctx peers in
  do callAll q calls;
  ret r.

(** The closure of lines 82-104, with the variables it captures. *)
Definition lookupQueryFunc (dht : IpfsDHT) (parent : context) (key : string)
  : queryFunc := fun ctx p =>
  (* For DHT query command *)
  do emit (EvPublish parent (SendingQuery p));
  do emit (EvFindPeerSingle ctx p key);
  let '(pmes, err) := findPeerSingle ctx p key in
  match err with
  | Some e =>
      do emit (EvDebugf "error getting closer peers: %s" e);
      ret (None, Some e)
  | None =>
      let peers := PBPeersToPeerInfos (GetCloserPeers pmes) in
      (* For DHT query command *)
      do emit (EvPublish parent (PeerResponse p peers));
      ret (Some {| closerPeers := peers; queriedSet := None |}, None)
  end.

(** [for _, p := range sorted { out <- p }] *)
Fixpoint sendAll (sorted : list peer) : M unit :=
  match sorted with
  | [] => ret tt
  | p :: rest => do emit (EvSend p); sendAll rest
  end.

(** The goroutine of lines 106-131. *)
Definition lookupWorker (dht : IpfsDHT) (ctx : context) (key : string)
    (query : dhtQuery) (tablepeers : list peer) : M unit :=
  with_defer (emit EvClose) (
  with_defer (emit EvEventDone) (
  let timedCtx := WithTimeout ctx Minute in
  with_defer (emit EvCancel) (
  (* run it! *)
  let* (res, err) := runQuery query timedCtx tablepeers in
  do match err with
     | Some e => emit (EvDebugf "closestPeers query run error: %s" e)
     | None => ret tt
     end;
  match res with
  | Some r =>
      match queriedSet r with
      | Some qs =>
          (* refresh the cpl for this key as the query was successful *)
          do emit (EvResetCpl (ConvertKey key) time_Now);
          let sorted := SortClosestPeers (Peers qs) (ConvertKey key) in
          let l := Z.of_nat (length sorted) in
          let* sorted := if (l >? bucketSize dht)%Z
                         then slice_to sorted (bucketSize dht)
                         else ret sorted in
          sendAll sorted
      | None => ret tt
      end
  | None => ret tt
  end))).

(** Kademlia 'node lookup' operation. *)
Definition GetClosestPeers (dht : IpfsDHT) (ctx : context) (key : string)
  : M lookupCall :=
  let* m := loggableKey key in
  do emit (EvEventBegin "getClosestPeers" m);
  do emit (EvNearestPeers (ConvertKey key) AlphaValue);
  let tablepeers :=
    NearestPeers (routingTable dht) (ConvertKey key) AlphaValue in
  if (Z.of_nat (length tablepeers) =? 0)%Z
  then ret {| out := None; err := Some ErrLookupFailure; spawned := None |}
  else
    let* ch := make_chan (bucketSize dht) in
    (* since the query doesnt actually pass our context down
       we have to hack this here. *)
    let parent := ctx in
    let query := newQuery key (lookupQueryFunc dht parent key) in
    ret {| out := Some ch; err := None;
           spawned := Some (lookupWorker dht ctx key query tablepeers) |}.

End Lookup.

(** ** The channel between the goroutine and the caller

    The goroutine performs its events in order; the caller receives from the
    channel whenever it likes, or never. *)

Definition push (p : peer) (c : chan) : chan :=
  {| cap := cap c; buf := buf c ++ [p]; closed := closed c |}.
Definition pop (c : chan) : chan :=
  {| cap := cap c; buf := tail (buf c); closed := closed c |}.
Definition close (c : chan) : chan :=
  {| cap := cap c; buf := buf c; closed := true |}.

Definition chanOp (e : event) : bool :=
  match e with EvSend _ | EvClose => true | _ => false end.

(** The peers a run of events sends, in order. *)
Definition sent (tr : list event) : list peer :=
  omap (fun e => match e with EvSend p => Some p | _ => None end) tr.

(** How often a run of events closes the channel. *)
Definition isClose (e : event) : bool :=
  match e with EvClose => true | _ => false end.
Definition closes (tr : list event) : nat :=
  length (filter (fun e => isClose e) tr).

(** The goroutine's remaining events, the channel, what the caller has
    received so far and whether it has seen the end of the sequence. *)
Record config : Type :=
  { todo : list event; ch : chan; received : list peer; eos : bool }.

(** Steps of the goroutine. A send needs an open channel and room in the
    buffer, or a caller taking the peer at once; a close needs an open
    channel. Sending on a closed channel and closing twice panic and a send
    into a full buffer waits: in those states there is no step. *)
Inductive pstep : config -> config -> Prop :=
| pstep_send p k c r e :
    closed c = false -> (Z.of_nat (length (buf c)) < cap c)%Z ->
    pstep {| todo := EvSend p :: k; ch := c; received := r; eos := e |}
          {| todo := k; ch := push p c; received := r; eos := e |}
| pstep_handoff p k c r e :
    closed c = false -> buf c = [] ->
    pstep {| todo := EvSend p :: k; ch := c; received := r; eos := e |}
          {| todo := k; ch := c; received := r ++ [p]; eos := e |}
| pstep_close k c r e :
    closed c = false ->
    pstep {| todo := EvClose :: k; ch := c; received := r; eos := e |}
          {| todo := k; ch := close c; received := r; eos := e |}
| pstep_other ev k c r e :
    chanOp ev = false ->
    pstep {| todo := ev :: k; ch := c; received := r; eos := e |}
          {| todo := k; ch := c; received := r; eos := e |}.

(** Steps of the caller: receive the oldest buffered peer, or find the
    channel closed and drained. *)
Inductive cstep : config -> config -> Prop :=
| cstep_recv p b k c r e :
    buf c = p :: b ->
    cstep {| todo := k; ch := c; received := r; eos := e |}
          {| todo := k; ch := pop c; received := r ++ [p]; eos := e |}
| cstep_eos k c r e :
    buf c = [] -> closed c = true ->
    cstep {| todo := k; ch := c; received := r; eos := e |}
          {| todo := k; ch := c; received := r; eos := true |}.

Definition step (x y : config) : Prop := pstep x y \/ cstep x y.

(** The states an execution can reach from [x]. *)
Inductive reach (x : config) : config -> Prop :=
| reach_here : reach x x
| reach_step y z : reach x y -> step y z -> reach x z.

(** The start: the goroutine has all its events ahead, nothing received. *)
Definition start (tr : list event) (c : chan) : config :=
  {| todo := tr; ch := c; received := []; eos := false |}.

(** What becomes of a goroutine whose channel nobody reads. *)
Inductive fate : Type :=
| Finished (c : chan)
| Blocked (p : peer) (c : chan)
| Crashed (why : string).

Fixpoint runAlone (tr : list event) (c : chan) : fate :=
  match tr with
  | [] => Finished c
  | EvSend p :: k =>
      if closed c then Crashed "send on closed channel"
      else if (Z.of_nat (length (buf c)) <? cap c)%Z then runAlone k (push p c)
      else Blocked p c
  | EvClose :: k =>
      if closed c then Crashed "close of closed channel"
      else runAlone k (close c)
  | _ :: k => runAlone k c
  end.

(** ** What holds of the goroutine and its channel all along *)

(** A run of events that closes the channel once, as its last event. *)
Definition closesLast (tr : list event) : Prop :=
  exists pre, tr = pre ++ [EvClose] /\ closes pre = 0%nat.

(** For a goroutine that is to deliver [ps] over a channel of capacity [k]:
    the peers received, those in the buffer and those still to be sent make
    up [ps], in this order; the goroutine closes the channel as its last
    event; the caller sees the end only on a closed and drained channel. *)
Definition inv (k : Z) (ps : list peer) (x : config) : Prop :=
  cap (ch x) = k /\
  received x ++ buf (ch x) ++ sent (todo x) = ps /\
  (if closed (ch x) then todo x = [] else closesLast (todo x)) /\
  (eos x = true -> closed (ch x) = true /\ buf (ch x) = []).

(** A channel as [make] returns it. *)
Definition fresh (k : Z) : chan := {| cap := k; buf := []; closed := false |}.

(** ** Observations on a run of events *)

(** The keys [tryFormatLoggableKey] rejects: the empty key, and a key that
    begins with a slash and has no second one. *)
Definition unformattable (k : string) : Prop :=
  k = "" \/
  exists t, k = String "/" t /\ forall i, String.get i t <> Some "/"%char.

(** The events of the query function: progress events, the RPC and its
    debug log. *)
Definition quiet (e : event) : bool :=
  match e with
  | EvPublish _ _ | EvFindPeerSingle _ _ _ | EvDebugf _ _ => true
  | _ => false
  end.

(** The events of a query: the runner started, a peer asked, a query event
    published. *)
Definition isQuery (e : event) : bool :=
  match e with
  | EvRun _ _ | EvFindPeerSingle _ _ _ | EvPublish _ _ => true
  | _ => false
  end.

(** The refresh signals of a run, with their arguments. *)
Definition resets (tr : list event) : list (ID * time) :=
  omap (fun e => match e with EvResetCpl a t => Some (a, t) | _ => None end) tr.

(** The calls of the runner in a run, with their arguments. *)
Definition runs (tr : list event) : list (context * list peer) :=
  omap (fun e => match e with EvRun c l => Some (c, l) | _ => None end) tr.

(** The routing-table queries of a run, with their arguments. *)
Definition nearestCalls (tr : list event) : list (ID * Z) :=
  omap (fun e => match e with EvNearestPeers a n => Some (a, n) | _ => None end)
       tr.

Section Shape.
Context `{Collaborators}.

(** [p] is at least as close to [target] as [q]. *)
Definition closerEq (target : ID) (p q : peer) : Prop :=
  (peerDistance target p <= peerDistance target q)%N.

(** The log line of the goroutine for the error of the run. *)
Definition runErrorLog (e : option error) : list event :=
  match e with
  | Some e => [EvDebugf "closestPeers query run error: %s" e]
  | None => []
  end.

(** The peers the goroutine picks from the result of the run. *)
Definition picked (dht : IpfsDHT) (key : string) (qs : PeerSet) : list peer :=
  take (Z.to_nat (bucketSize dht))
       (SortClosestPeers (Peers qs) (ConvertKey key)).

(** The events of lines 117-130 for the result of the run. *)
Definition finalEvents (dht : IpfsDHT) (key : string)
    (res : option dhtQueryResult) : list event :=
  match res with
  | Some r =>
      match queriedSet r with
      | Some qs =>
          EvResetCpl (ConvertKey key) time_Now :: map EvSend (picked dht key qs)
      | None => []
      end
  | None => []
  end.

(** The seeds, the query and the answer of the runner in the call
    [GetClosestPeers dht ctx key]. *)
Definition lookupSeeds (dht : IpfsDHT) (key : string) : list peer :=
  NearestPeers (routingTable dht) (ConvertKey key) AlphaValue.

Definition lookupQuery (dht : IpfsDHT) (ctx : context) (key : string)
  : dhtQuery :=
  newQuery key (lookupQueryFunc dht ctx key).

Definition lookupRun (dht : IpfsDHT) (ctx : context) (key : string)
  : (option dhtQueryResult * option error) * list (context * peer) :=
  query_Run (lookupQuery dht ctx key) (WithTimeout ctx Minute)
            (lookupSeeds dht key).

(** The peers of the queried set of a result; none when the result or the
    set is nil. *)
Definition queriedPeers (res : option dhtQueryResult) : option (list peer) :=
  match res with
  | Some r => Peers <$> queriedSet r
  | None => None
  end.

(** The events of the goroutine, for the events [ql] of the query function
    and the answer [(res, e)] of the runner. *)
Definition workerEvents (dht : IpfsDHT) (ctx : context) (key : string)
    (ql : list event) (res : option dhtQueryResult) (e : option error)
  : list event :=
  EvRun (WithTimeout ctx Minute) (lookupSeeds dht key) :: ql ++
  runErrorLog e ++ finalEvents dht key res ++ [EvCancel; EvEventDone; EvClose].

End Shape.

(** ** The other logging helper, and further observations *)

Section Multihash.
Context `{Collaborators}.

(** [multihashLoggableKey], lines 62-66; a [multihash.Multihash] is a byte
    slice. *)
Definition multihashLoggableKey (mh : string) : LoggableMap :=
  {[ "multihash" := base32_EncodeToString mh ]}.

End Multihash.

(** A string without a slash. *)
Definition noSlash (s : string) : Prop :=
  forall i, String.get i s <> Some "/"%char.

(** How often a run of events begins and ends the logging span. *)
Definition isBegin (e : event) : bool :=
  match e with EvEventBegin _ _ => true | _ => false end.
Definition isDone (e : event) : bool :=
  match e with EvEventDone => true | _ => false end.
Definition begins (tr : list event) : nat :=
  length (filter (fun e => isBegin e) tr).
Definition dones (tr : list event) : nat :=
  length (filter (fun e => isDone e) tr).

(** A query event published to [parent]; an RPC that asks for [key]. *)
Definition addressed (parent : context) (key : string) (e : event) : Prop :=
  match e with
  | EvPublish c _ => c = parent
  | EvFindPeerSingle _ _ target => target = key
  | _ => True
  end.

(** ** A small network to run the lookup on *)

Module Net.

(** The addresses of the key K and of the peers P1 to P4; P3 and P4 are at
    the same distance from K. *)
Definition addr (s : string) : N :=
  match s with
  | "K" => 0
  | "P1" => 10
  | "P2" => 20
  | "P3" => 5
  | "P4" => 5
  | _ => N.of_nat (String.length s) + 100
  end%N.

Definition info (p : PBPeer) : PeerInfo :=
  {| pi_ID := pb_Id p; pi_Addrs := pb_Addrs p |}.

Definition pbpeer (id : string) : PBPeer := {| pb_Id := id; pb_Addrs := [] |}.

(** P1 knows P3, P3 and P4 know nobody new, everybody else fails. *)
Definition rpc (ctx : context) (p target : peer)
  : option Message * option error :=
  match p with
  | "P1" => (Some {| CloserPeers := [pbpeer "P3"] |}, None)
  | "P3" => (Some {| CloserPeers := [] |}, None)
  | "P4" => (Some {| CloserPeers := [pbpeer "P3"; pbpeer "P1"] |}, None)
  | _ => (None, Some (ErrOther "dial failed"))
  end.

(** Modelled from the spec: the query runner lives in [query.go], which is
    not part of [lookup.go]. Section 4.3, one worker at a time: take the next
    peer of the frontier, ask it, on success add the peers it names that were
    not seen before, on failure drop it; stop when the frontier is empty. The
    result carries the peers that answered; the error is [ErrOther] when
    nobody did. *)
Fixpoint walk (fuel : nat) (q : dhtQuery) (ctx : context)
    (frontier seen queried : list peer) (calls : list (context * peer))
  : list peer * list (context * peer) :=
  match fuel, frontier with
  | S fuel, p :: rest =>
      match q_qfunc q ctx p with
      | Ok (Some r, None) _ =>
          let new := filter (fun x => x ∉ seen)
                            (remove_dups (map pi_ID (closerPeers r))) in
          walk fuel q ctx (rest ++ new) (seen ++ new) (queried ++ [p])
               (calls ++ [(ctx, p)])
      | _ => walk fuel q ctx rest seen queried (calls ++ [(ctx, p)])
      end
  | _, _ => (queried, calls)
  end.

Definition run (q : dhtQuery) (ctx : context) (seeds : list peer)
  : (option dhtQueryResult * option error) * list (context * peer) :=
  let '(queried, calls) := walk 64 q ctx seeds seeds [] [] in
  ((Some {| closerPeers := []; queriedSet := Some {| Peers := queried |} |},
    if bool_decide (queried = []) then Some (ErrOther "routing: not found")
    else None),
   calls).

#[local] Instance net : Collaborators := {|
  Cid := string;
  cid_Cast := fun s => inr (ErrOther "not a cid");
  cid_String := fun c => c;
  base32_EncodeToString := fun s => s;
  ConvertKey := addr;
  ConvertPeerID := addr;
  AlphaValue := 3;
  findPeerSingle := rpc;
  PBPeersToPeerInfos := map info;
  time_Now := 1572000000;
  query_Run := run
|}.

(** A routing table that knows [known], and answers with its [count]
    closest peers. *)
Definition table (known : list peer) : RoutingTable :=
  {| NearestPeers := fun a count =>
       take (Z.to_nat count) (SortClosestPeers known a) |}.

Definition node (known : list peer) (k : Z) : IpfsDHT :=
  {| routingTable := table known; bucketSize := k |}.

(** The scenario of the specification: the node knows P1 and P2 and keeps
    buckets of two; the caller looks up K. *)
Definition dht2 : IpfsDHT := node ["P1"; "P2"] 2.
Definition caller : context := CallerCtx "caller".

End Net.

(** * Properties *)

(** ** The monad *)

Lemma bind_ret_l {A B} (a : A) (k : A -> M B) :
  bind (ret a) k = k a.
Proof. unfold bind, ret. destruct (k a); reflexivity. Qed.

Lemma bind_Ok_Ok {A B} (m : M A) (k : A -> M B) a l b l' :
  m = Ok a l -> k a = Ok b l' -> bind m k = Ok b (l ++ l').
Proof. intros -> Hk. simpl. rewrite Hk. reflexivity. Qed.

Lemma with_defer_Ok {A} (d : M unit) (body : M A) a l u l' :
  body = Ok a l -> d = Ok u l' -> with_defer d body = Ok a (l ++ l').
Proof. intros -> ->. reflexivity. Qed.

Lemma bind_emit {B} (e : event) (k : unit -> M B) b l :
  k tt = Ok b l -> bind (emit e) k = Ok b (e :: l).
Proof. intros Hk. unfold emit. simpl. rewrite Hk. reflexivity. Qed.

(** ** Indexing and slicing strings *)

Lemma len_String a s : len (String a s) = (len s + 1)%Z.
Proof. unfold len. simpl String.length. lia. Qed.

Lemma len_nonneg s : (0 <= len s)%Z.
Proof. unfold len. lia. Qed.

Lemma substring_all s : String.substring 0 (String.length s) s = s.
Proof. induction s as [|a s IH]; simpl; [reflexivity | by rewrite IH]. Qed.

Lemma IndexByte_range s c : (-1 <= IndexByte s c < len s)%Z.
Proof.
  induction s as [|a s IH].
  - simpl. unfold len. simpl. lia.
  - rewrite len_String. simpl.
    destruct (Ascii.eqb a c); [pose proof (len_nonneg s); lia |].
    destruct (Z.ltb_spec (IndexByte s c) 0); lia.
Qed.

(** [IndexByte] answers -1 exactly on the strings in which [c] is nowhere. *)
Lemma IndexByte_absent s c :
  (IndexByte s c < 0)%Z <-> forall i, String.get i s <> Some c.
Proof.
  induction s as [|a s IH]; simpl.
  - split; [intros _ i; by destruct i | lia].
  - destruct (Ascii.eqb_spec a c) as [->|Hne].
    + split; [lia | intros Hi; by destruct (Hi 0%nat)].
    + pose proof (IndexByte_range s c) as Hr.
      destruct (Z.ltb_spec (IndexByte s c) 0) as [Hlt|Hge].
      * split; [|lia]. intros _ [|i]; simpl; [congruence | by apply IH].
      * split; [lia|]. intros Hi.
        assert (IndexByte s c < 0)%Z; [|lia].
        apply IH. intros i. apply (Hi (S i)).
Qed.

Lemma index_head a s : index (String a s) 0 = ret a.
Proof. reflexivity. Qed.

Lemma slice_from_1 a s : slice_from (String a s) 1 = ret s.
Proof.
  unfold slice_from, slice. rewrite len_String.
  pose proof (len_nonneg s) as Hs.
  replace ((0 <=? 1)%Z && (1 <=? len s + 1)%Z && (len s + 1 <=? len s + 1)%Z)
    with true by (symmetry; rewrite !andb_true_iff, !Z.leb_le; lia).
  replace (len s + 1 - 1)%Z with (len s) by lia.
  unfold len. rewrite Nat2Z.id. change (Z.to_nat 1) with 1%nat.
  simpl String.substring. by rewrite substring_all.
Qed.

Lemma slice_in_range s lo hi :
  (0 <= lo <= hi)%Z -> (hi <= len s)%Z -> exists t, slice s lo hi = ret t.
Proof.
  intros Hlo Hhi. unfold slice.
  replace ((0 <=? lo)%Z && (lo <=? hi)%Z && (hi <=? len s)%Z)
    with true by (symmetry; rewrite !andb_true_iff, !Z.leb_le; lia).
  eauto.
Qed.

(** ** [tryFormatLoggableKey] and [loggableKey] *)

Section LoggableKeyFacts.
Context `{Collaborators}.

(** [tryFormatLoggableKey] never panics: its index and its slices are in
    range. *)
Lemma tryFormatLoggableKey_returns k :
  exists s oe, tryFormatLoggableKey k = Ok (s, oe) [] /\
    (is_Some oe <-> unformattable k) /\ (is_Some oe -> s = k).
Proof.
  unfold tryFormatLoggableKey, unformattable.
  destruct k as [|a t].
  - exists "", (Some ErrLoggableKeyEmpty). simpl. split; [reflexivity|].
    split; [|done]. split; [by left | by eexists].
  - rewrite len_String. pose proof (len_nonneg t) as Ht.
    destruct (Z.eqb_spec (len t + 1) 0) as [?|_]; [lia|].
    rewrite index_head, bind_ret_l.
    destruct (Ascii.eqb_spec a "/"%char) as [->|Hne].
    + rewrite slice_from_1, bind_ret_l.
      pose proof (IndexByte_range t "/"%char) as Hr.
      destruct (Z.ltb_spec (IndexByte t "/") 0) as [Hlt|Hge].
      * exists (String "/" t), (Some (ErrLoggableKeyNotPath (String "/" t))).
        split; [reflexivity|]. split; [|done].
        split; [|by eexists]. intros _. right. exists t. split; [done|].
        by apply IndexByte_absent.
      * destruct (slice_in_range (String "/" t) 1 (IndexByte t "/" + 1))
          as [proto ->]; [lia | rewrite len_String; lia |].
        unfold slice_from.
        destruct (slice_in_range (String "/" t) (IndexByte t "/" + 2)
                    (len (String "/" t))) as [cstr ->];
          [rewrite len_String; lia | lia |].
        rewrite !bind_ret_l. exists (formatKey proto cstr), None.
        split; [reflexivity|]. split; [|by intros [? ?]].
        split; [by intros [? ?]|]. intros [?|(t' & Heq & Hno)]; [done|].
        injection Heq as <-. apply IndexByte_absent in Hno. lia.
    + exists (formatKey "provider" (String a t)), None.
      split; [reflexivity|]. split; [|by intros [? ?]].
      split; [by intros [? ?]|]. intros [?|(t' & Heq & _)]; [done|].
      injection Heq as -> _. done.
Qed.

(** [loggableKey] returns, and logs at most the formatting error. *)
Lemma loggableKey_returns k :
  exists (m : gmap string string) l,
    loggableKey k = Ok m l /\ (l = [] \/ exists e, l = [EvDebug e]).
Proof.
  destruct (tryFormatLoggableKey_returns k) as (s & oe & Heq & _ & _).
  unfold loggableKey. rewrite Heq.
  destruct oe as [e|]; simpl; eexists _, _; (split; [reflexivity|]); eauto.
Qed.

(** C8. [tryFormatLoggableKey k] returns an error exactly when [k] is empty,
    or begins with a slash and has no second slash, and then returns [k]
    itself beside the error; [loggableKey k] always returns a map with a
    ["key"] entry, which holds the formatted key when formatting succeeds
    and [k] itself when it errors (the error is logged at debug level). *)
Theorem loggableKey_never_fails (k : string) :
  (exists s oe, tryFormatLoggableKey k = Ok (s, oe) [] /\
     (is_Some oe <-> unformattable k) /\ (is_Some oe -> s = k)) /\
  (exists (m : gmap string string) l v,
     loggableKey k = Ok m l /\ m !! "key" = Some v /\
     match tryFormatLoggableKey k with
     | Ok (s, None) _ => v = s /\ l = []
     | Ok (_, Some e) _ => v = k /\ l = [EvDebug e]
     | Panic _ _ => False
     end).
Proof.
  split; [apply tryFormatLoggableKey_returns|].
  destruct (tryFormatLoggableKey_returns k) as (s & oe & Heq & _ & _).
  unfold loggableKey. rewrite Heq.
  destruct oe as [e|]; simpl.
  - exists {[ "key" := k ]}, [EvDebug e], k.
    split; [reflexivity|]. split; [apply lookup_singleton_eq | done].
  - exists {[ "key" := s ]}, [], s.
    split; [reflexivity|]. split; [apply lookup_singleton_eq | done].
Qed.

End LoggableKeyFacts.

(** ** Ranking by distance *)

Section Ranking.
Context `{Collaborators}.

Lemma insertCloser_perm target p l : insertCloser target p l ≡ₚ p :: l.
Proof.
  induction l as [|q l IH]; simpl; [done|].
  destruct (peerDistance target p <=? peerDistance target q)%N; [done|].
  rewrite IH. apply perm_swap.
Qed.

Lemma SortClosestPeers_perm peers target :
  SortClosestPeers peers target ≡ₚ peers.
Proof.
  unfold SortClosestPeers.
  induction peers as [|p l IH]; simpl; [done|].
  by rewrite insertCloser_perm, IH.
Qed.

Lemma insertCloser_sorted target p l :
  StronglySorted (closerEq target) l ->
  StronglySorted (closerEq target) (insertCloser target p l).
Proof.
  induction l as [|q l IH]; simpl; intros Hs.
  - repeat constructor.
  - apply StronglySorted_cons in Hs as [Hq Hl].
    destruct (N.leb_spec (peerDistance target p) (peerDistance target q))
      as [Hle|Hlt].
    + apply StronglySorted_cons. split.
      * constructor; [exact Hle|].
        eapply Forall_impl; [exact Hq|]. intros r Hr. unfold closerEq in *. lia.
      * by apply StronglySorted_cons.
    + apply StronglySorted_cons. split; [|by apply IH].
      rewrite insertCloser_perm. constructor; [unfold closerEq; lia | done].
Qed.

Lemma SortClosestPeers_sorted peers target :
  StronglySorted (closerEq target) (SortClosestPeers peers target).
Proof.
  unfold SortClosestPeers.
  induction peers as [|p l IH]; simpl; [constructor|].
  by apply insertCloser_sorted.
Qed.

Lemma take_sorted {A} (R : A -> A -> Prop) n (l : list A) :
  StronglySorted R l -> StronglySorted R (take n l).
Proof.
  intros Hs. rewrite <- (take_drop n l) in Hs.
  by apply StronglySorted_app_1_l in Hs.
Qed.

Lemma picked_sorted dht key qs :
  StronglySorted (closerEq (ConvertKey key)) (picked dht key qs).
Proof. apply take_sorted, SortClosestPeers_sorted. Qed.

Lemma picked_length dht key qs :
  (0 <= bucketSize dht)%Z ->
  (Z.of_nat (length (picked dht key qs)) <= bucketSize dht)%Z.
Proof. intros Hk. unfold picked. rewrite length_take. lia. Qed.

Lemma picked_NoDup dht key qs : NoDup (Peers qs) -> NoDup (picked dht key qs).
Proof.
  intros Hnd. unfold picked.
  eapply sublist_NoDup; [|apply sublist_take].
  by rewrite SortClosestPeers_perm.
Qed.

End Ranking.

(** ** The query function, the goroutine and the call *)

Section Run.
Context `{Collaborators}.
Variables (dht : IpfsDHT) (ctx : context) (key : string).

Lemma lookupQueryFunc_cases c p :
  lookupQueryFunc dht ctx key c p =
  match findPeerSingle c p key with
  | (_, Some e) =>
      Ok (None, Some e)
         [EvPublish ctx (SendingQuery p); EvFindPeerSingle c p key;
          EvDebugf "error getting closer peers: %s" e]
  | (pmes, None) =>
      let peers := PBPeersToPeerInfos (GetCloserPeers pmes) in
      Ok (Some {| closerPeers := peers; queriedSet := None |}, None)
         [EvPublish ctx (SendingQuery p); EvFindPeerSingle c p key;
          EvPublish ctx (PeerResponse p peers)]
  end.
Proof.
  unfold lookupQueryFunc.
  destruct (findPeerSingle c p key) as [pmes [e|]]; reflexivity.
Qed.

Lemma lookupQueryFunc_quiet c p :
  exists r l, lookupQueryFunc dht ctx key c p = Ok r l /\ Forall quiet l.
Proof.
  rewrite lookupQueryFunc_cases.
  destruct (findPeerSingle c p key) as [pmes [e|]]; simpl;
    eexists _, _; (split; [reflexivity|]); repeat constructor.
Qed.

Lemma callAll_quiet calls :
  exists l, callAll (lookupQuery dht ctx key) calls = Ok tt l /\ Forall quiet l.
Proof.
  induction calls as [|[c p] calls (l & Hl & Hq)]; simpl.
  - exists []. split; [reflexivity | constructor].
  - destruct (lookupQueryFunc_quiet c p) as (r & l0 & Hr & Hq0).
    exists (l0 ++ l). split; [|by apply Forall_app].
    eapply bind_Ok_Ok; [exact Hr | exact Hl].
Qed.

Lemma sendAll_Ok l : sendAll l = Ok tt (map EvSend l).
Proof.
  induction l as [|p l IH]; simpl; [reflexivity|].
  by rewrite IH.
Qed.

(** Lines 122-125: the truncation never slices out of range. *)
Lemma truncate_Ok (sorted : list peer) :
  (0 <= bucketSize dht)%Z ->
  (if (Z.of_nat (length sorted) >? bucketSize dht)%Z
   then slice_to sorted (bucketSize dht) else ret sorted)
  = ret (take (Z.to_nat (bucketSize dht)) sorted).
Proof.
  intros Hk. destruct (Z.gtb_spec (Z.of_nat (length sorted)) (bucketSize dht)).
  - unfold slice_to.
    replace ((0 <=? bucketSize dht)%Z
             && (bucketSize dht <=? Z.of_nat (length sorted))%Z)
      with true by (symmetry; rewrite andb_true_iff, !Z.leb_le; lia).
    reflexivity.
  - rewrite take_ge by lia. reflexivity.
Qed.

(** The whole run of the goroutine, for each answer of the runner. *)
Lemma lookupWorker_trace res e calls :
  (0 <= bucketSize dht)%Z ->
  lookupRun dht ctx key = ((res, e), calls) ->
  exists ql, Forall quiet ql /\
    lookupWorker dht ctx key (lookupQuery dht ctx key) (lookupSeeds dht key) =
    Ok tt (workerEvents dht ctx key ql res e).
Proof.
  intros Hk Hrun.
  destruct (callAll_quiet calls) as (ql & Hql & Hquiet).
  exists ql. split; [exact Hquiet|].
  set (body := EvRun (WithTimeout ctx Minute) (lookupSeeds dht key) :: ql ++
                runErrorLog e ++ finalEvents dht key res).
  replace (workerEvents dht ctx key ql res e)
    with (((body ++ [EvCancel]) ++ [EvEventDone]) ++ [EvClose])
    by (subst body; unfold workerEvents; simpl; rewrite <- !app_assoc;
        reflexivity).
  unfold lookupWorker.
  apply with_defer_Ok with (u := tt); [|reflexivity].
  apply with_defer_Ok with (u := tt); [|reflexivity].
  cbv zeta.
  apply with_defer_Ok with (u := tt); [|reflexivity].
  unfold runQuery. unfold lookupRun in Hrun. rewrite Hrun, Hql.
  subst body. simpl.
  destruct e as [e|]; simpl; rewrite ?app_nil_r;
    destruct res as [[cp [qs|]]|]; simpl; rewrite ?app_nil_r;
    try reflexivity;
    rewrite truncate_Ok by done; simpl; rewrite sendAll_Ok; reflexivity.
Qed.

(** The three ways a call of [GetClosestPeers] can go. *)
Lemma GetClosestPeers_cases :
  exists m l0,
    loggableKey key = Ok m l0 /\ (l0 = [] \/ exists e, l0 = [EvDebug e]) /\
    let l := l0 ++ [EvEventBegin "getClosestPeers" m;
                    EvNearestPeers (ConvertKey key) AlphaValue] in
    GetClosestPeers dht ctx key =
    if bool_decide (lookupSeeds dht key = []) then
      Ok {| out := None; err := Some ErrLookupFailure; spawned := None |} l
    else if (bucketSize dht <? 0)%Z then
      Panic "makechan: size out of range" l
    else
      Ok {| out := Some {| cap := bucketSize dht; buf := []; closed := false |};
            err := None;
            spawned := Some (lookupWorker dht ctx key (lookupQuery dht ctx key)
                                          (lookupSeeds dht key)) |} l.
Proof.
  destruct (loggableKey_returns key) as (m & l0 & Hm & Hl0).
  exists m, l0. split; [exact Hm|]. split; [exact Hl0|].
  unfold GetClosestPeers. rewrite Hm.
  fold (lookupSeeds dht key). fold (lookupQuery dht ctx key).
  destruct (lookupSeeds dht key) as [|p ps]; simpl.
  - reflexivity.
  - unfold make_chan. destruct (bucketSize dht <? 0)%Z; reflexivity.
Qed.

End Run.

(** ** Runs of events *)

Lemma sent_app l1 l2 : sent (l1 ++ l2) = sent l1 ++ sent l2.
Proof. apply omap_app. Qed.

Lemma closes_app l1 l2 : closes (l1 ++ l2) = (closes l1 + closes l2)%nat.
Proof. unfold closes. by rewrite filter_app, length_app. Qed.

Lemma sent_sends ps : sent (map EvSend ps) = ps.
Proof. induction ps as [|p ps IH]; simpl; [done | by rewrite IH]. Qed.

Lemma closes_sends ps : closes (map EvSend ps) = 0%nat.
Proof. induction ps as [|p ps IH]; [done | exact IH]. Qed.

Lemma resets_sends ps : resets (map EvSend ps) = [].
Proof. induction ps as [|p ps IH]; [done | exact IH]. Qed.

Lemma runs_sends ps : runs (map EvSend ps) = [].
Proof. induction ps as [|p ps IH]; [done | exact IH]. Qed.

(** The query function neither touches the channel, nor refreshes the
    routing table, nor starts a run. *)
Lemma quiet_silent l :
  Forall quiet l ->
  sent l = [] /\ closes l = 0%nat /\ resets l = [] /\ runs l = [] /\
  Forall (fun e => chanOp e = false) l.
Proof.
  induction 1 as [|e l He _ (Hs & Hc & Hr & Hu & Hf)]; [by repeat split|].
  destruct e; try done; simpl; repeat split; try done; by constructor.
Qed.

(** ** The channel *)

Lemma reach_trans x y z : reach x y -> reach y z -> reach x z.
Proof. intros Hxy Hyz. induction Hyz; [done | by eapply reach_step]. Qed.

Lemma reach_one x y : step x y -> reach x y.
Proof. intros Hs. eapply reach_step; [apply reach_here | done]. Qed.

Lemma closesLast_tail e tr :
  closesLast (e :: tr) -> isClose e = false -> closesLast tr.
Proof.
  intros (pre & Heq & Hc) He. destruct pre as [|e' pre]; simpl in Heq.
  - injection Heq as -> ->. done.
  - injection Heq as <- ->. exists pre. split; [done|].
    unfold closes in *. rewrite filter_cons in Hc.
    destruct (decide (isClose e)) as [Hyes|Hno]; [by rewrite He in Hyes | done].
Qed.

Lemma closesLast_head tr : closesLast (EvClose :: tr) -> tr = [].
Proof.
  intros (pre & Heq & Hc). destruct pre as [|e' pre]; simpl in Heq.
  - by injection Heq.
  - injection Heq as <- ->. done.
Qed.

Section Channel.
Variables (k : Z) (ps : list peer).

Lemma inv_start tr :
  closesLast tr -> sent tr = ps -> inv k ps (start tr (fresh k)).
Proof. intros Hc Hs. by repeat split. Qed.

(** The goroutine and the caller both keep [inv]. *)
Lemma inv_step x y : inv k ps x -> step x y -> inv k ps y.
Proof.
  intros (Hcap & Hps & Hcl & Heos) [Hp|Hc].
  - destruct Hp as [p t c r e Hopen Hroom|p t c r e Hopen Hempty
                   |t c r e Hopen|ev t c r e Hev]; simpl in *;
      rewrite ?Hopen in *.
    + repeat split; simpl; rewrite ?Hopen; try done;
        try (by destruct Heos).
      * by rewrite <- Hps, <- !app_assoc.
      * by apply closesLast_tail in Hcl.
    + repeat split; simpl; rewrite ?Hopen; try done;
        try (by destruct Heos).
      * rewrite Hempty in *. by rewrite <- Hps, <- !app_assoc.
      * by apply closesLast_tail in Hcl.
    + repeat split; simpl; try done;
        try (by destruct Heos).
      by apply closesLast_head in Hcl.
    + repeat split; simpl; try done; try (by destruct Heos).
      * rewrite <- Hps. by destruct ev.
      * destruct (closed c); [done|].
        apply closesLast_tail in Hcl; [done | by destruct ev].
  - destruct Hc as [p b t c r e Hbuf|t c r e Hbuf Hclosed]; simpl in *.
    + assert (e = false) as -> by (destruct e; [destruct Heos|]; congruence).
      repeat split; simpl; try done.
      rewrite Hbuf in *. simpl. by rewrite <- Hps, <- !app_assoc.
    + repeat split; simpl; done.
Qed.

Lemma inv_reach x y : inv k ps x -> reach x y -> inv k ps y.
Proof. intros Hx Hr. induction Hr; [done | by eapply inv_step]. Qed.

(** With room for all of [ps], the goroutine never waits and never panics:
    whatever the caller has done, its next event can be performed. *)
Lemma inv_progress x :
  (Z.of_nat (length ps) <= k)%Z -> inv k ps x -> todo x <> [] ->
  exists y, pstep x y.
Proof.
  intros Hk (Hcap & Hps & Hcl & _) Hne.
  destruct x as [[|ev t] c r e]; [done|]; simpl in *.
  destruct (closed c) eqn:Hopen; [done|].
  destruct ev; try (eexists; by apply pstep_other).
  - eexists. apply pstep_send; [done|].
    apply (f_equal length) in Hps. rewrite !length_app in Hps. simpl in Hps. lia.
  - eexists. by apply pstep_close.
Qed.

(** The buffer never holds more than the capacity. *)
Lemma inv_bounded x :
  (Z.of_nat (length ps) <= k)%Z -> inv k ps x ->
  (Z.of_nat (length (buf (ch x))) <= cap (ch x))%Z.
Proof.
  intros Hk (Hcap & Hps & _). apply (f_equal length) in Hps.
  rewrite !length_app in Hps. lia.
Qed.

(** A caller that has seen the end has received [ps], all of it, in order. *)
Lemma inv_eos x : inv k ps x -> eos x = true -> received x = ps.
Proof.
  intros (_ & Hps & Hcl & Heos) He. destruct (Heos He) as [Hclosed Hbuf].
  rewrite Hclosed in Hcl. rewrite Hcl, Hbuf in Hps. simpl in Hps.
  by rewrite app_nil_r in Hps.
Qed.

End Channel.

(** A goroutine left alone performs its sends one after the other, as long
    as the buffer has room. *)
Lemma runAlone_prefix pre rest k b :
  closes pre = 0%nat ->
  (Z.of_nat (length b + length (sent pre)) <= k)%Z ->
  runAlone (pre ++ rest) {| cap := k; buf := b; closed := false |} =
  runAlone rest {| cap := k; buf := b ++ sent pre; closed := false |}.
Proof.
  revert b. induction pre as [|e pre IH]; intros b Hc Hroom; simpl.
  - by rewrite app_nil_r.
  - assert (isClose e = false /\ closes pre = 0%nat) as [He Hc'].
    { unfold closes in *. rewrite filter_cons in Hc.
      destruct (decide (isClose e)); [done|]. by destruct (isClose e). }
    destruct e; try done; try (apply IH; [done | simpl in Hroom; lia]).
    simpl in Hroom. unfold push. simpl.
    destruct (Z.ltb_spec (Z.of_nat (length b)) k) as [_|?]; [|lia].
    rewrite IH; [|done|rewrite length_app; simpl; lia].
    by rewrite <- app_assoc.
Qed.

Lemma runAlone_closesLast tr k :
  closesLast tr -> (Z.of_nat (length (sent tr)) <= k)%Z ->
  runAlone tr (fresh k) = Finished {| cap := k; buf := sent tr; closed := true |}.
Proof.
  intros (pre & -> & Hc) Hk. rewrite sent_app, app_nil_r in *.
  unfold fresh. rewrite runAlone_prefix; [reflexivity | done | simpl; lia].
Qed.

Lemma reach_step_l x y z : step x y -> reach y z -> reach x z.
Proof. intros Hs. apply reach_trans. by apply reach_one. Qed.

(** The same, as steps of the system. *)
Lemma reach_prefix pre rest k b r e :
  closes pre = 0%nat ->
  (Z.of_nat (length b + length (sent pre)) <= k)%Z ->
  reach {| todo := pre ++ rest; ch := {| cap := k; buf := b; closed := false |};
           received := r; eos := e |}
        {| todo := rest;
           ch := {| cap := k; buf := b ++ sent pre; closed := false |};
           received := r; eos := e |}.
Proof.
  revert b. induction pre as [|ev pre IH]; intros b Hc Hroom; simpl.
  - rewrite app_nil_r. apply reach_here.
  - assert (isClose ev = false /\ closes pre = 0%nat) as [He Hc'].
    { unfold closes in *. rewrite filter_cons in Hc.
      destruct (decide (isClose ev)); [done|]. by destruct (isClose ev). }
    destruct ev; try done;
      try (eapply reach_step_l;
           [left; by apply pstep_other | apply IH; [done | simpl in Hroom; lia]]).
    simpl in Hroom. eapply reach_step_l.
    + left. apply pstep_send; simpl; [done | lia].
    + unfold push. simpl.
      replace (b ++ p :: sent pre) with ((b ++ [p]) ++ sent pre)
        by (by rewrite <- app_assoc).
      apply IH; [done | rewrite length_app; simpl; lia].
Qed.

(** A caller that keeps receiving empties a closed channel and then sees
    the end. *)
Lemma reach_drain k b r :
  reach {| todo := []; ch := {| cap := k; buf := b; closed := true |};
           received := r; eos := false |}
        {| todo := []; ch := {| cap := k; buf := []; closed := true |};
           received := r ++ b; eos := true |}.
Proof.
  revert r. induction b as [|p b IH]; intros r.
  - rewrite app_nil_r. apply reach_one. right. by apply cstep_eos.
  - eapply reach_step_l.
    + right. by eapply (cstep_recv p b).
    + unfold pop. simpl. replace (r ++ p :: b) with ((r ++ [p]) ++ b)
        by (by rewrite <- app_assoc).
      apply IH.
Qed.

(** There is a complete execution: the goroutine sends everything and
    closes, the caller receives everything and sees the end. *)
Lemma reach_delivered tr k :
  closesLast tr -> (Z.of_nat (length (sent tr)) <= k)%Z ->
  reach (start tr (fresh k))
        {| todo := []; ch := {| cap := k; buf := []; closed := true |};
           received := sent tr; eos := true |}.
Proof.
  intros (pre & -> & Hc) Hk. rewrite sent_app, app_nil_r in *.
  eapply reach_trans; [apply reach_prefix; [done | simpl; lia]|].
  eapply reach_step_l; [left; by apply pstep_close|].
  apply (reach_drain k (sent pre) []).
Qed.

(** ** The events of the goroutine *)

Section WorkerEvents.
Context `{Collaborators}.
Variables (dht : IpfsDHT) (ctx : context) (key : string).

Lemma finalEvents_sent res :
  sent (finalEvents dht key res) =
  match queriedPeers res with
  | Some peers =>
      take (Z.to_nat (bucketSize dht)) (SortClosestPeers peers (ConvertKey key))
  | None => []
  end.
Proof.
  destruct res as [[cp [qs|]]|]; simpl; try done.
  by rewrite sent_sends.
Qed.

Lemma finalEvents_resets res :
  resets (finalEvents dht key res) =
  match queriedPeers res with
  | Some _ => [(ConvertKey key, time_Now)]
  | None => []
  end.
Proof.
  destruct res as [[cp [qs|]]|]; simpl; try done.
  by rewrite resets_sends.
Qed.

Lemma finalEvents_closes res : closes (finalEvents dht key res) = 0%nat.
Proof.
  destruct res as [[cp [qs|]]|]; try done. apply (closes_sends (picked _ _ _)).
Qed.

Lemma finalEvents_chanOps res :
  filter (fun e => chanOp e) (finalEvents dht key res) =
  map EvSend (sent (finalEvents dht key res)).
Proof.
  destruct res as [[cp [qs|]]|]; try done.
  cbn [finalEvents queriedSet sent omap list_omap]. rewrite sent_sends.
  rewrite filter_cons_False by (cbn; intros []).
  induction (picked dht key qs) as [|p l IH]; [done|].
  cbn [map]. rewrite filter_cons_True by exact I. by rewrite IH.
Qed.

Lemma runErrorLog_quiet e : Forall quiet (runErrorLog e).
Proof. destruct e; repeat constructor. Qed.

Section Facts.
Variables (ql : list event) (res : option dhtQueryResult) (e : option error).
Hypothesis Hql : Forall quiet ql.

Abbreviation tr := (workerEvents dht ctx key ql res e).

Lemma workerEvents_sent : sent tr = sent (finalEvents dht key res).
Proof.
  unfold workerEvents.
  destruct (quiet_silent ql Hql) as (Hs & _).
  destruct (quiet_silent _ (runErrorLog_quiet e)) as (Hs' & _).
  change (EvRun ?c ?l :: ?t) with ([EvRun c l] ++ t).
  rewrite !sent_app, Hs, Hs'. simpl. by rewrite app_nil_r.
Qed.

Lemma workerEvents_resets : resets tr = resets (finalEvents dht key res).
Proof.
  unfold workerEvents, resets.
  destruct (quiet_silent ql Hql) as (_ & _ & Hr & _).
  destruct (quiet_silent _ (runErrorLog_quiet e)) as (_ & _ & Hr' & _).
  unfold resets in *.
  change (EvRun ?c ?l :: ?t) with ([EvRun c l] ++ t).
  rewrite !omap_app, Hr, Hr'. simpl. by rewrite app_nil_r.
Qed.

Lemma workerEvents_runs :
  runs tr = [(WithTimeout ctx Minute, lookupSeeds dht key)].
Proof.
  unfold workerEvents, runs.
  destruct (quiet_silent ql Hql) as (_ & _ & _ & Hr & _).
  destruct (quiet_silent _ (runErrorLog_quiet e)) as (_ & _ & _ & Hr' & _).
  unfold runs in *. simpl. rewrite !omap_app, Hr, Hr'. simpl.
  destruct res as [[cp [qs|]]|]; simpl; try done.
  by rewrite (runs_sends (picked dht key qs)).
Qed.

Lemma workerEvents_closesLast : closesLast tr.
Proof.
  exists (EvRun (WithTimeout ctx Minute) (lookupSeeds dht key) :: ql ++
          runErrorLog e ++ finalEvents dht key res ++ [EvCancel; EvEventDone]).
  split.
  - unfold workerEvents. simpl. f_equal.
    rewrite <- !app_assoc. reflexivity.
  - destruct (quiet_silent ql Hql) as (_ & Hc & _).
    destruct (quiet_silent _ (runErrorLog_quiet e)) as (_ & Hc' & _).
    change (EvRun ?c ?l :: ?t) with ([EvRun c l] ++ t).
    rewrite !closes_app, Hc, Hc', finalEvents_closes. reflexivity.
Qed.

Lemma workerEvents_closes : closes tr = 1%nat /\ last tr = Some EvClose.
Proof.
  destruct workerEvents_closesLast as (pre & -> & Hc).
  rewrite closes_app, Hc, last_snoc. done.
Qed.

Lemma workerEvents_chanOps :
  filter (fun e => chanOp e) tr = map EvSend (sent tr) ++ [EvClose].
Proof.
  rewrite workerEvents_sent. unfold workerEvents.
  destruct (quiet_silent ql Hql) as (_ & _ & _ & _ & Hf).
  destruct (quiet_silent _ (runErrorLog_quiet e)) as (_ & _ & _ & _ & Hf').
  rewrite filter_cons_False by (cbn; intros []).
  assert (forall l, Forall (fun e => chanOp e = false) l ->
                    filter (fun e => chanOp e) l = []) as Hnone.
  { induction 1 as [|x l Hx _ IH]; [done|].
    rewrite filter_cons_False; [done | rewrite Hx; cbn; intros []]. }
  rewrite !filter_app, (Hnone _ Hf), (Hnone _ Hf'), finalEvents_chanOps.
  reflexivity.
Qed.

Lemma workerEvents_errorLogged e0 :
  e = Some e0 -> EvDebugf "closestPeers query run error: %s" e0 ∈ tr.
Proof.
  intros ->. unfold workerEvents. simpl.
  rewrite elem_of_cons, elem_of_app, elem_of_cons. auto.
Qed.

End Facts.

(** A call with seeds and a proper bucket size returns the channel and no
    error, and starts a goroutine that runs to its end. *)
Lemma GetClosestPeers_runs res e calls :
  lookupSeeds dht key <> [] -> (0 <= bucketSize dht)%Z ->
  lookupRun dht ctx key = ((res, e), calls) ->
  exists l ql, Forall quiet ql /\
    GetClosestPeers dht ctx key =
    Ok {| out := Some (fresh (bucketSize dht)); err := None;
          spawned := Some (Ok tt (workerEvents dht ctx key ql res e)) |} l.
Proof.
  intros Hseeds Hk Hrun.
  destruct (GetClosestPeers_cases dht ctx key) as (m & l0 & _ & _ & Heq).
  destruct (lookupWorker_trace dht ctx key res e calls Hk Hrun)
    as (ql & Hquiet & Hw).
  eexists _, ql. split; [exact Hquiet|].
  rewrite Heq. rewrite bool_decide_eq_false_2 by exact Hseeds.
  destruct (Z.ltb_spec (bucketSize dht) 0) as [?|_]; [lia|].
  rewrite Hw. reflexivity.
Qed.

End WorkerEvents.

(** * The lookup *)

(** Name the answer of the runner and let the call run on it. *)
Ltac run_lookup dht ctx key Hseeds Hk :=
  let Hrun := fresh "Hrun" in
  destruct (lookupRun dht ctx key) as [[res e] calls] eqn:Hrun;
  destruct (GetClosestPeers_runs dht ctx key _ _ _ Hseeds Hk Hrun)
    as (l & ql & Hquiet & Hcall).

Section Claims.
Context `{Collaborators}.
Variables (dht : IpfsDHT) (ctx : context) (key : string).

(** C1. [GetClosestPeers] returns a non-nil error exactly when the routing
    table has no seed for the key; it then returns [kb.ErrLookupFailure] and
    no channel, starts no goroutine, and none of its events is a query: the
    runner is not called, no peer is asked and no query event published. *)
Theorem GetClosestPeers_fails_iff_no_seeds :
  ((exists c l e, GetClosestPeers dht ctx key = Ok c l /\ err c = Some e) <->
   lookupSeeds dht key = []) /\
  (lookupSeeds dht key = [] ->
   exists l,
     GetClosestPeers dht ctx key =
     Ok {| out := None; err := Some ErrLookupFailure; spawned := None |} l /\
     Forall (fun e => isQuery e = false) l).
Proof.
  destruct (GetClosestPeers_cases dht ctx key) as (m & l0 & _ & Hq & Heq).
  cbv zeta in Heq.
  split; [split|].
  - intros (c & l & e & Hc & He). rewrite Heq in Hc.
    destruct (decide (lookupSeeds dht key = [])) as [Hnil|Hne]; [done|].
    rewrite bool_decide_eq_false_2 in Hc by done.
    destruct (bucketSize dht <? 0)%Z; [done|].
    injection Hc as <- _. done.
  - intros Hnil. rewrite Heq, bool_decide_eq_true_2 by done. by eexists _, _, _.
  - intros Hnil. rewrite Heq, bool_decide_eq_true_2 by done.
    eexists. split; [reflexivity|].
    apply Forall_app. split; [|by repeat constructor].
    destruct Hq as [->|[e ->]]; by repeat constructor.
Qed.

(** C2. In a run whose result and queried set are non-nil, the peers sent on
    the channel are the queried set sorted by distance to the key and cut to
    [bucketSize] entries: at most [bucketSize] peers, none closer to the key
    than one sent before it. *)
Theorem emitted_sorted_and_truncated r e calls qs :
  lookupSeeds dht key <> [] -> (0 <= bucketSize dht)%Z ->
  lookupRun dht ctx key = ((Some r, e), calls) -> queriedSet r = Some qs ->
  exists c l tr,
    GetClosestPeers dht ctx key = Ok c l /\ spawned c = Some (Ok tt tr) /\
    sent tr = take (Z.to_nat (bucketSize dht))
                   (SortClosestPeers (Peers qs) (ConvertKey key)) /\
    (Z.of_nat (length (sent tr)) <= bucketSize dht)%Z /\
    StronglySorted (closerEq (ConvertKey key)) (sent tr).
Proof.
  intros Hseeds Hk Hrun Hqs.
  destruct (GetClosestPeers_runs dht ctx key _ _ _ Hseeds Hk Hrun)
    as (l & ql & Hquiet & Hcall).
  eexists _, l, _. split; [exact Hcall|]. split; [reflexivity|].
  rewrite workerEvents_sent, finalEvents_sent by done.
  simpl. rewrite Hqs. simpl.
  split; [reflexivity|]. split.
  - apply (picked_length dht key qs Hk).
  - apply (picked_sorted dht key qs).
Qed.

(** What the guard of line 117 lets through: the refresh signal is fired,
    once, for the address of the key, exactly when the runner answers with a
    non-nil result whose queried set is non-nil; the error the runner
    returns beside it is not looked at. *)
Lemma refresh_iff_queried_set_returned :
  lookupSeeds dht key <> [] -> (0 <= bucketSize dht)%Z ->
  exists c l tr,
    GetClosestPeers dht ctx key = Ok c l /\ spawned c = Some (Ok tt tr) /\
    resets tr =
    match queriedPeers (fst (fst (lookupRun dht ctx key))) with
    | Some _ => [(ConvertKey key, time_Now)]
    | None => []
    end.
Proof.
  intros Hseeds Hk.
  run_lookup dht ctx key Hseeds Hk.
  eexists _, l, _. split; [exact Hcall|]. split; [reflexivity|].
  by rewrite workerEvents_resets, finalEvents_resets.
Qed.

(** C4. With a seed, nothing that goes wrong in the run reaches the caller
    as an error: the call returns the channel and a nil error whatever the
    runner answers; the runner is called once, under the caller's context
    with a timeout of one minute; its error is logged at debug level; the
    goroutine runs to its end and closes the channel as its last event, so
    that a caller reading the channel receives the peers sent, possibly
    none, and then the end of the sequence. *)
Theorem run_errors_are_not_surfaced :
  lookupSeeds dht key <> [] -> (0 <= bucketSize dht)%Z ->
  exists c0 l tr,
    GetClosestPeers dht ctx key =
    Ok {| out := Some c0; err := None; spawned := Some (Ok tt tr) |} l /\
    runs tr = [(WithTimeout ctx Minute, lookupSeeds dht key)] /\
    (forall e, snd (fst (lookupRun dht ctx key)) = Some e ->
               EvDebugf "closestPeers query run error: %s" e ∈ tr) /\
    closesLast tr /\
    reach (start tr c0)
          {| todo := []; ch := close c0; received := sent tr; eos := true |} /\
    (forall x, reach (start tr c0) x -> eos x = true -> received x = sent tr).
Proof.
  intros Hseeds Hk.
  run_lookup dht ctx key Hseeds Hk.
  set (tr := workerEvents dht ctx key ql res e) in *.
  assert (closesLast tr) as Hlast by by apply workerEvents_closesLast.
  assert (Z.of_nat (length (sent tr)) <= bucketSize dht)%Z as Hlen.
  { subst tr. rewrite workerEvents_sent, finalEvents_sent by done.
    destruct (queriedPeers res); simpl; [rewrite length_take|]; lia. }
  exists (fresh (bucketSize dht)), l, tr. split; [exact Hcall|].
  split; [by apply workerEvents_runs|].
  split; [intros e0 He0; by apply workerEvents_errorLogged|].
  split; [exact Hlast|]. split.
  - by apply reach_delivered.
  - intros x Hx. apply (inv_eos (bucketSize dht)).
    eapply inv_reach; [|exact Hx]. by apply inv_start.
Qed.

(** C5. The query function returns, when the RPC succeeds, the closer peers
    of the response converted to address infos, and when the RPC fails, that
    failure and no result; the failure is logged at debug level and nothing
    else is done about it. Whatever peers the runner asks and however many
    of them fail, the query function returns normally each time, and the
    lookup returns no error and runs to the closing of the channel. *)
Theorem peer_query_failure_is_local c p :
  match findPeerSingle c p key with
  | (pmes, None) =>
      let peers := PBPeersToPeerInfos (GetCloserPeers pmes) in
      lookupQueryFunc dht ctx key c p =
      Ok (Some {| closerPeers := peers; queriedSet := None |}, None)
         [EvPublish ctx (SendingQuery p); EvFindPeerSingle c p key;
          EvPublish ctx (PeerResponse p peers)]
  | (_, Some e) =>
      lookupQueryFunc dht ctx key c p =
      Ok (None, Some e)
         [EvPublish ctx (SendingQuery p); EvFindPeerSingle c p key;
          EvDebugf "error getting closer peers: %s" e]
  end /\
  (forall calls, exists l,
     callAll (lookupQuery dht ctx key) calls = Ok tt l /\ Forall quiet l) /\
  (lookupSeeds dht key <> [] -> (0 <= bucketSize dht)%Z ->
   exists c0 l tr,
     GetClosestPeers dht ctx key =
     Ok {| out := Some c0; err := None; spawned := Some (Ok tt tr) |} l /\
     closesLast tr).
Proof.
  split; [|split].
  - rewrite lookupQueryFunc_cases.
    by destruct (findPeerSingle c p key) as [pmes [e|]].
  - intros calls. apply callAll_quiet.
  - intros Hseeds Hk.
    run_lookup dht ctx key Hseeds Hk.
    eexists _, l, _. split; [exact Hcall|]. by apply workerEvents_closesLast.
Qed.

(** C6. If the queried set of the run holds no peer twice, no peer is sent
    twice on the channel: sorting and cutting keep the peers distinct. *)
Theorem emitted_peers_are_distinct :
  lookupSeeds dht key <> [] -> (0 <= bucketSize dht)%Z ->
  (forall peers, queriedPeers (fst (fst (lookupRun dht ctx key))) = Some peers ->
                 NoDup peers) ->
  exists c l tr,
    GetClosestPeers dht ctx key = Ok c l /\ spawned c = Some (Ok tt tr) /\
    NoDup (sent tr).
Proof.
  intros Hseeds Hk Hnd.
  run_lookup dht ctx key Hseeds Hk.
  eexists _, l, _. split; [exact Hcall|]. split; [reflexivity|].
  rewrite workerEvents_sent, finalEvents_sent by done. simpl in Hnd.
  destruct (queriedPeers res) as [peers|]; [|constructor].
  eapply sublist_NoDup; [|apply sublist_take].
  rewrite SortClosestPeers_perm. by apply Hnd.
Qed.

End Claims.

(** * Delivery over the channel *)

Section Delivery.
Context `{Collaborators}.
Variables (dht : IpfsDHT) (ctx : context) (key : string).

(** C7. The result travels over a channel made with capacity [bucketSize],
    empty and open. The peers sent are the result of the run: its queried
    set, sorted by distance to the key and cut to [bucketSize], and nothing
    when the result or its queried set is nil. The channel operations of the
    goroutine are the sends of these peers, closest first, followed by one
    close. In every execution the buffer stays within the capacity and a
    caller that has seen the end has received exactly these peers, in
    order; and such an execution exists. *)
Theorem results_delivered_over_bounded_queue :
  lookupSeeds dht key <> [] -> (0 <= bucketSize dht)%Z ->
  exists c0 l tr,
    GetClosestPeers dht ctx key =
    Ok {| out := Some c0; err := None; spawned := Some (Ok tt tr) |} l /\
    c0 = {| cap := bucketSize dht; buf := []; closed := false |} /\
    sent tr =
      match queriedPeers (fst (fst (lookupRun dht ctx key))) with
      | Some peers =>
          take (Z.to_nat (bucketSize dht))
               (SortClosestPeers peers (ConvertKey key))
      | None => []
      end /\
    filter (fun e => chanOp e) tr = map EvSend (sent tr) ++ [EvClose] /\
    StronglySorted (closerEq (ConvertKey key)) (sent tr) /\
    (forall x, reach (start tr c0) x ->
       (Z.of_nat (length (buf (ch x))) <= bucketSize dht)%Z /\
       (eos x = true -> received x = sent tr)) /\
    reach (start tr c0)
          {| todo := []; ch := close c0; received := sent tr; eos := true |}.
Proof.
  intros Hseeds Hk.
  run_lookup dht ctx key Hseeds Hk.
  set (tr := workerEvents dht ctx key ql res e) in *.
  assert (closesLast tr) as Hlast by by apply workerEvents_closesLast.
  assert (sent tr = sent (finalEvents dht key res)) as Hsent
    by by apply workerEvents_sent.
  assert (Z.of_nat (length (sent tr)) <= bucketSize dht)%Z as Hlen.
  { rewrite Hsent, finalEvents_sent.
    destruct (queriedPeers res); simpl; [rewrite length_take|]; lia. }
  exists (fresh (bucketSize dht)), l, tr. split; [exact Hcall|].
  split; [reflexivity|]. split; [by rewrite Hsent, finalEvents_sent|].
  split; [by apply workerEvents_chanOps|].
  split; [|split].
  - rewrite Hsent, finalEvents_sent.
    destruct (queriedPeers res); [|constructor].
    apply take_sorted, SortClosestPeers_sorted.
  - intros x Hx.
    assert (inv (bucketSize dht) (sent tr) x) as Hinv
      by (eapply inv_reach; [by apply inv_start | exact Hx]).
    split; [|by apply (inv_eos (bucketSize dht))].
    pose proof (inv_bounded _ _ x Hlen Hinv) as Hb.
    destruct Hinv as (Hcap & _). by rewrite Hcap in Hb.
  - by apply reach_delivered.
Qed.

(** C9. With a seed, the goroutine sends at most [bucketSize] peers into a
    channel of capacity [bucketSize]. Left alone, with nobody reading, it
    performs all its sends and its close and leaves the peers in the
    buffer; and whatever the caller does, the goroutine is never kept from
    its next event. It closes the channel once, as its last event. *)
Theorem sends_never_block :
  lookupSeeds dht key <> [] -> (0 <= bucketSize dht)%Z ->
  exists c0 l tr,
    GetClosestPeers dht ctx key =
    Ok {| out := Some c0; err := None; spawned := Some (Ok tt tr) |} l /\
    cap c0 = bucketSize dht /\
    (Z.of_nat (length (sent tr)) <= bucketSize dht)%Z /\
    runAlone tr c0 =
    Finished {| cap := bucketSize dht; buf := sent tr; closed := true |} /\
    (forall x, reach (start tr c0) x -> todo x <> [] -> exists y, pstep x y) /\
    closes tr = 1%nat /\ last tr = Some EvClose.
Proof.
  intros Hseeds Hk.
  run_lookup dht ctx key Hseeds Hk.
  set (tr := workerEvents dht ctx key ql res e) in *.
  assert (closesLast tr) as Hlast by by apply workerEvents_closesLast.
  assert (Z.of_nat (length (sent tr)) <= bucketSize dht)%Z as Hlen.
  { subst tr. rewrite workerEvents_sent, finalEvents_sent by done.
    destruct (queriedPeers res); simpl; [rewrite length_take|]; lia. }
  exists (fresh (bucketSize dht)), l, tr. split; [exact Hcall|].
  split; [reflexivity|]. split; [exact Hlen|].
  split; [by apply runAlone_closesLast|]. split.
  - intros x Hx. apply (inv_progress (bucketSize dht) (sent tr)); [done|].
    eapply inv_reach; [by apply inv_start | exact Hx].
  - by apply workerEvents_closes.
Qed.

(** C10. The routing table is asked once, for [AlphaValue] peers nearest to
    the address of the key, whatever [bucketSize] is; the peers it answers
    with are the seeds the runner is started on. When the routing table
    keeps to the count it is asked for, there are at most [AlphaValue]
    seeds. *)
Theorem seeds_bounded_by_alpha :
  (forall a n, (0 <= n)%Z ->
     (Z.of_nat (length (NearestPeers (routingTable dht) a n)) <= n)%Z) ->
  (0 <= AlphaValue)%Z ->
  nearestCalls (events (GetClosestPeers dht ctx key)) =
    [(ConvertKey key, AlphaValue)] /\
  (Z.of_nat (length (lookupSeeds dht key)) <= AlphaValue)%Z /\
  (lookupSeeds dht key <> [] -> (0 <= bucketSize dht)%Z ->
   exists c l tr,
     GetClosestPeers dht ctx key = Ok c l /\ spawned c = Some (Ok tt tr) /\
     runs tr = [(WithTimeout ctx Minute, lookupSeeds dht key)]).
Proof.
  intros Htable Halpha. split; [|split].
  - destruct (GetClosestPeers_cases dht ctx key) as (m & l0 & Hm & Hlog & Heq).
    cbv zeta in Heq. rewrite Heq.
    assert (nearestCalls l0 = []) as Hl0 by (by destruct Hlog as [->|[e ->]]).
    assert (nearestCalls
              (l0 ++ [EvEventBegin "getClosestPeers" m;
                      EvNearestPeers (ConvertKey key) AlphaValue])
            = [(ConvertKey key, AlphaValue)]) as Hcalls.
    { unfold nearestCalls in *. by rewrite omap_app, Hl0. }
    destruct (bool_decide _); [exact Hcalls|].
    destruct (bucketSize dht <? 0)%Z; exact Hcalls.
  - unfold lookupSeeds. by apply Htable.
  - intros Hseeds Hk.
    run_lookup dht ctx key Hseeds Hk.
    eexists _, l, _. split; [exact Hcall|]. split; [reflexivity|].
    by apply workerEvents_runs.
Qed.

End Delivery.

(** * The lookup on the small network *)

Section OnTheNetwork.
#[local] Existing Instance Net.net.

Lemma dht2_seeds : lookupSeeds Net.dht2 "K" = ["P1"; "P2"].
Proof. reflexivity. Qed.

Lemma dht2_run :
  lookupRun Net.dht2 Net.caller "K" =
  ((Some {| closerPeers := [];
            queriedSet := Some {| Peers := ["P1"; "P3"] |} |}, None),
   [(WithTimeout Net.caller Minute, "P1");
    (WithTimeout Net.caller Minute, "P2");
    (WithTimeout Net.caller Minute, "P3")]).
Proof. reflexivity. Qed.

(** The scenario of the specification: P1 answers with P3, P2 fails, P3
    knows nobody new. P3 and P1 are sent, closest first, and the routing
    table is refreshed. *)
Example scenario :
  exists c l tr,
    GetClosestPeers Net.dht2 Net.caller "K" = Ok c l /\
    spawned c = Some (Ok tt tr) /\ err c = None /\
    sent tr = ["P3"; "P1"] /\ resets tr = [(0%N, 1572000000%Z)].
Proof. eexists _, _, _. repeat split; reflexivity. Qed.

(** C3. The refresh signal is meant for a successful query only: line 118
    says "refresh the cpl for this key as the query was successful". The
    guard of line 117 tests the result and its queried set for nil and does
    not look at the error. Here the node knows P2 only and P2 does not
    answer: the runner returns an error, and beside it a result whose
    queried set is empty. No query succeeded, nothing is sent, and the
    refresh signal is fired all the same. *)
Lemma refresh_fired_on_failed_run :
  lookupRun (Net.node ["P2"] 20) Net.caller "K" =
  ((Some {| closerPeers := []; queriedSet := Some {| Peers := [] |} |},
    Some (ErrOther "routing: not found")),
   [(WithTimeout Net.caller Minute, "P2")]) /\
  exists c l tr,
    GetClosestPeers (Net.node ["P2"] 20) Net.caller "K" = Ok c l /\
    spawned c = Some (Ok tt tr) /\
    sent tr = [] /\
    resets tr = [(ConvertKey "K", time_Now)].
Proof. split; [reflexivity|]. eexists _, _, _. repeat split; reflexivity. Qed.

Lemma emitted_sorted_and_truncated_witness :
  lookupSeeds Net.dht2 "K" <> [] /\ (0 <= bucketSize Net.dht2)%Z /\
  exists c l tr,
    GetClosestPeers Net.dht2 Net.caller "K" = Ok c l /\
    spawned c = Some (Ok tt tr) /\
    sent tr = take (Z.to_nat (bucketSize Net.dht2))
                   (SortClosestPeers ["P1"; "P3"] (ConvertKey "K")) /\
    (Z.of_nat (length (sent tr)) <= bucketSize Net.dht2)%Z /\
    StronglySorted (closerEq (ConvertKey "K")) (sent tr).
Proof.
  assert (lookupSeeds Net.dht2 "K" <> []) as Hs by (rewrite dht2_seeds; done).
  assert (0 <= bucketSize Net.dht2)%Z as Hk by (simpl; lia).
  split; [exact Hs|]. split; [exact Hk|].
  exact (emitted_sorted_and_truncated Net.dht2 Net.caller "K" _ _ _
           {| Peers := ["P1"; "P3"] |} Hs Hk dht2_run eq_refl).
Defined.

Lemma refresh_iff_queried_set_returned_witness :
  lookupSeeds Net.dht2 "K" <> [] /\ (0 <= bucketSize Net.dht2)%Z /\
  exists c l tr,
    GetClosestPeers Net.dht2 Net.caller "K" = Ok c l /\
    spawned c = Some (Ok tt tr) /\
    resets tr =
    match queriedPeers (fst (fst (lookupRun Net.dht2 Net.caller "K"))) with
    | Some _ => [(ConvertKey "K", time_Now)]
    | None => []
    end.
Proof.
  assert (lookupSeeds Net.dht2 "K" <> []) as Hs by (rewrite dht2_seeds; done).
  assert (0 <= bucketSize Net.dht2)%Z as Hk by (simpl; lia).
  split; [exact Hs|]. split; [exact Hk|].
  exact (refresh_iff_queried_set_returned Net.dht2 Net.caller "K" Hs Hk).
Defined.

Lemma run_errors_are_not_surfaced_witness :
  lookupSeeds Net.dht2 "K" <> [] /\ (0 <= bucketSize Net.dht2)%Z /\
  exists c0 l tr,
    GetClosestPeers Net.dht2 Net.caller "K" =
    Ok {| out := Some c0; err := None; spawned := Some (Ok tt tr) |} l /\
    runs tr = [(WithTimeout Net.caller Minute, lookupSeeds Net.dht2 "K")] /\
    (forall e, snd (fst (lookupRun Net.dht2 Net.caller "K")) = Some e ->
               EvDebugf "closestPeers query run error: %s" e ∈ tr) /\
    closesLast tr /\
    reach (start tr c0)
          {| todo := []; ch := close c0; received := sent tr; eos := true |} /\
    (forall x, reach (start tr c0) x -> eos x = true -> received x = sent tr).
Proof.
  assert (lookupSeeds Net.dht2 "K" <> []) as Hs by (rewrite dht2_seeds; done).
  assert (0 <= bucketSize Net.dht2)%Z as Hk by (simpl; lia).
  split; [exact Hs|]. split; [exact Hk|].
  exact (run_errors_are_not_surfaced Net.dht2 Net.caller "K" Hs Hk).
Defined.

Lemma emitted_peers_are_distinct_witness :
  lookupSeeds Net.dht2 "K" <> [] /\ (0 <= bucketSize Net.dht2)%Z /\
  (forall peers,
     queriedPeers (fst (fst (lookupRun Net.dht2 Net.caller "K"))) = Some peers ->
     NoDup peers) /\
  exists c l tr,
    GetClosestPeers Net.dht2 Net.caller "K" = Ok c l /\
    spawned c = Some (Ok tt tr) /\ NoDup (sent tr).
Proof.
  assert (lookupSeeds Net.dht2 "K" <> []) as Hs by (rewrite dht2_seeds; done).
  assert (0 <= bucketSize Net.dht2)%Z as Hk by (simpl; lia).
  assert (forall peers,
            queriedPeers (fst (fst (lookupRun Net.dht2 Net.caller "K")))
            = Some peers -> NoDup peers) as Hnd.
  { rewrite dht2_run. simpl. intros peers [= <-].
    refine (bool_decide_unpack (NoDup ["P1"; "P3"]) _). vm_compute. exact I. }
  split; [exact Hs|]. split; [exact Hk|]. split; [exact Hnd|].
  exact (emitted_peers_are_distinct Net.dht2 Net.caller "K" Hs Hk Hnd).
Defined.

Lemma results_delivered_over_bounded_queue_witness :
  lookupSeeds Net.dht2 "K" <> [] /\ (0 <= bucketSize Net.dht2)%Z /\
  exists c0 l tr,
    GetClosestPeers Net.dht2 Net.caller "K" =
    Ok {| out := Some c0; err := None; spawned := Some (Ok tt tr) |} l /\
    c0 = {| cap := bucketSize Net.dht2; buf := []; closed := false |} /\
    sent tr =
      match queriedPeers (fst (fst (lookupRun Net.dht2 Net.caller "K"))) with
      | Some peers =>
          take (Z.to_nat (bucketSize Net.dht2))
               (SortClosestPeers peers (ConvertKey "K"))
      | None => []
      end /\
    filter (fun e => chanOp e) tr = map EvSend (sent tr) ++ [EvClose] /\
    StronglySorted (closerEq (ConvertKey "K")) (sent tr) /\
    (forall x, reach (start tr c0) x ->
       (Z.of_nat (length (buf (ch x))) <= bucketSize Net.dht2)%Z /\
       (eos x = true -> received x = sent tr)) /\
    reach (start tr c0)
          {| todo := []; ch := close c0; received := sent tr; eos := true |}.
Proof.
  assert (lookupSeeds Net.dht2 "K" <> []) as Hs by (rewrite dht2_seeds; done).
  assert (0 <= bucketSize Net.dht2)%Z as Hk by (simpl; lia).
  split; [exact Hs|]. split; [exact Hk|].
  exact (results_delivered_over_bounded_queue Net.dht2 Net.caller "K" Hs Hk).
Defined.

Lemma sends_never_block_witness :
  lookupSeeds Net.dht2 "K" <> [] /\ (0 <= bucketSize Net.dht2)%Z /\
  exists c0 l tr,
    GetClosestPeers Net.dht2 Net.caller "K" =
    Ok {| out := Some c0; err := None; spawned := Some (Ok tt tr) |} l /\
    cap c0 = bucketSize Net.dht2 /\
    (Z.of_nat (length (sent tr)) <= bucketSize Net.dht2)%Z /\
    runAlone tr c0 =
    Finished {| cap := bucketSize Net.dht2; buf := sent tr; closed := true |} /\
    (forall x, reach (start tr c0) x -> todo x <> [] -> exists y, pstep x y) /\
    closes tr = 1%nat /\ last tr = Some EvClose.
Proof.
  assert (lookupSeeds Net.dht2 "K" <> []) as Hs by (rewrite dht2_seeds; done).
  assert (0 <= bucketSize Net.dht2)%Z as Hk by (simpl; lia).
  split; [exact Hs|]. split; [exact Hk|].
  exact (sends_never_block Net.dht2 Net.caller "K" Hs Hk).
Defined.

Lemma seeds_bounded_by_alpha_witness :
  (forall a n, (0 <= n)%Z ->
     (Z.of_nat (length (NearestPeers (routingTable Net.dht2) a n)) <= n)%Z) /\
  (0 <= AlphaValue)%Z /\
  nearestCalls (events (GetClosestPeers Net.dht2 Net.caller "K")) =
    [(ConvertKey "K", AlphaValue)] /\
  (Z.of_nat (length (lookupSeeds Net.dht2 "K")) <= AlphaValue)%Z /\
  (lookupSeeds Net.dht2 "K" <> [] -> (0 <= bucketSize Net.dht2)%Z ->
   exists c l tr,
     GetClosestPeers Net.dht2 Net.caller "K" = Ok c l /\
     spawned c = Some (Ok tt tr) /\
     runs tr = [(WithTimeout Net.caller Minute, lookupSeeds Net.dht2 "K")]).
Proof.
  assert (forall a n, (0 <= n)%Z ->
            (Z.of_nat (length (NearestPeers (routingTable Net.dht2) a n)) <= n)%Z)
    as Ht by (intros a n Hn; simpl; rewrite length_take; lia).
  assert (0 <= AlphaValue)%Z as Ha by (simpl; lia).
  split; [exact Ht|]. split; [exact Ha|].
  exact (seeds_bounded_by_alpha Net.dht2 Net.caller "K" Ht Ha).
Defined.

End OnTheNetwork.

(** * More on the loggable keys *)

Lemma length_append a b :
  String.length (a +:+ b) = (String.length a + String.length b)%nat.
Proof. induction a as [|c a IH]; simpl; [done | by rewrite IH]. Qed.

Lemma substring_prefix a b :
  String.substring 0 (String.length a) (a +:+ b) = a.
Proof. induction a as [|c a IH]; simpl; [by destruct b | by rewrite IH]. Qed.

Lemma substring_skip_one a c b n :
  String.substring (S (String.length a)) n (a +:+ String c b) =
  String.substring 0 n b.
Proof. induction a as [|c' a IH]; simpl; [done | exact IH]. Qed.

Lemma noSlash_cons a s :
  noSlash (String a s) <-> a <> "/"%char /\ noSlash s.
Proof.
  unfold noSlash. split.
  - intros Hn. split; [intros ->; by apply (Hn 0%nat) | intros i; apply (Hn (S i))].
  - intros [Ha Hs] [|i]; simpl; [congruence | apply Hs].
Qed.

(** [IndexByte] finds the slash that ends a slash-free prefix. *)
Lemma IndexByte_after a b :
  noSlash a -> IndexByte (a +:+ String "/" b) "/" = len a.
Proof.
  induction a as [|c a IH]; intros Hn; [reflexivity|].
  apply noSlash_cons in Hn as [Hc Hn]. rewrite len_String. simpl.
  destruct (Ascii.eqb_spec c "/"%char) as [?|_]; [done|].
  rewrite (IH Hn). pose proof (len_nonneg a).
  destruct (Z.ltb_spec (len a) 0); [lia | reflexivity].
Qed.

(** A string in which [IndexByte] finds a slash splits there, into a
    slash-free part, the slash and the rest. *)
Lemma IndexByte_split t :
  (0 <= IndexByte t "/")%Z ->
  exists a b, t = a +:+ String "/" b /\ noSlash a.
Proof.
  induction t as [|c t IH]; simpl; [lia|].
  destruct (Ascii.eqb_spec c "/"%char) as [->|Hc].
  - intros _. exists "", t. split; [reflexivity | by intros [|i]].
  - destruct (Z.ltb_spec (IndexByte t "/") 0) as [?|Hge]; [lia|].
    intros _. destruct (IH Hge) as (a & b & -> & Hn).
    exists (String c a), b. split; [reflexivity | by apply noSlash_cons].
Qed.

Section LoggableKeyMore.
Context `{Collaborators}.

(** The path branch, on a key written as its parts. *)
Lemma path_formats proto cstr :
  noSlash proto ->
  tryFormatLoggableKey (String "/" (proto +:+ String "/" cstr)) =
  Ok (formatKey proto cstr, None) [].
Proof.
  intros Hn. unfold tryFormatLoggableKey.
  set (t := proto +:+ String "/" cstr).
  rewrite len_String. pose proof (len_nonneg t) as Ht.
  destruct (Z.eqb_spec (len t + 1) 0) as [?|_]; [lia|].
  rewrite index_head, bind_ret_l. change (Ascii.eqb "/" "/") with true. cbv iota.
  rewrite slice_from_1, bind_ret_l. subst t. rewrite (IndexByte_after _ _ Hn).
  pose proof (len_nonneg proto) as Hp.
  destruct (Z.ltb_spec (len proto) 0) as [?|_]; [lia|].
  assert (len (String "/" (proto +:+ String "/" cstr))
          = (len proto + len cstr + 2)%Z) as Hlen.
  { unfold len. simpl. rewrite length_append. simpl. lia. }
  pose proof (len_nonneg cstr) as Hc.
  unfold slice_from, slice. rewrite Hlen.
  replace ((0 <=? 1)%Z && (1 <=? len proto + 1)%Z
           && (len proto + 1 <=? len proto + len cstr + 2)%Z)
    with true by (symmetry; rewrite !andb_true_iff, !Z.leb_le; lia).
  replace ((0 <=? len proto + 2)%Z
           && (len proto + 2 <=? len proto + len cstr + 2)%Z
           && (len proto + len cstr + 2 <=? len proto + len cstr + 2)%Z)
    with true by (symmetry; rewrite !andb_true_iff, !Z.leb_le; lia).
  rewrite !bind_ret_l.
  replace (len proto + 1 - 1)%Z with (len proto) by lia.
  replace (len proto + len cstr + 2 - (len proto + 2))%Z with (len cstr) by lia.
  replace (Z.to_nat (len proto + 2)) with (S (S (String.length proto)))
    by (unfold len; lia).
  unfold len. rewrite !Nat2Z.id. change (Z.to_nat 1) with 1%nat.
  simpl String.substring.
  by rewrite substring_prefix, substring_skip_one, substring_all.
Qed.

(** Every success of [tryFormatLoggableKey] is one of its two branches. *)
Lemma success_shape k s l :
  tryFormatLoggableKey k = Ok (s, None) l ->
  (exists proto cstr, noSlash proto /\
     k = "/" +:+ proto +:+ "/" +:+ cstr /\ s = formatKey proto cstr) \/
  (exists a t, k = String a t /\ a <> "/"%char /\ s = formatKey "provider" k).
Proof.
  destruct k as [|a t]; [done|]. intros Hk.
  destruct (Ascii.eqb_spec a "/"%char) as [->|Ha].
  - left. destruct (Z.ltb_spec (IndexByte t "/") 0) as [Hlt|Hge].
    + exfalso. revert Hk. unfold tryFormatLoggableKey.
      rewrite len_String. pose proof (len_nonneg t).
      destruct (Z.eqb_spec (len t + 1) 0) as [?|_]; [lia|].
      rewrite index_head, bind_ret_l. change (Ascii.eqb "/" "/") with true.
      cbv iota. rewrite slice_from_1, bind_ret_l.
      destruct (Z.ltb_spec (IndexByte t "/") 0); [done | lia].
    + destruct (IndexByte_split t Hge) as (proto & cstr & -> & Hn).
      rewrite (path_formats proto cstr Hn) in Hk. injection Hk as <- <-.
      by exists proto, cstr.
  - right. exists a, t. split; [done|]. split; [done|].
    revert Hk. unfold tryFormatLoggableKey.
    rewrite len_String. pose proof (len_nonneg t).
    destruct (Z.eqb_spec (len t + 1) 0) as [?|_]; [lia|].
    rewrite index_head, bind_ret_l.
    destruct (Ascii.eqb_spec a "/"%char) as [?|_]; [done|].
    by intros [= <- <-].
Qed.

End LoggableKeyMore.

Lemma noSlash_provider : noSlash "provider".
Proof. repeat (apply noSlash_cons; split; [done|]). by intros [|i]. Qed.

Section LoggableKeyExtras.
Context `{Collaborators}.

(** X1. A key [/proto/rest], where [proto] has no slash, is formatted as
    [/proto/] followed by the encoding of [rest]: the protocol is what stands
    between the first two slashes, and everything after the second slash,
    further slashes included, is encoded as one piece. [loggableKey] stores
    that text under ["key"] and logs nothing. *)
Theorem path_key_is_split_at_second_slash proto cstr :
  noSlash proto ->
  tryFormatLoggableKey ("/" +:+ proto +:+ "/" +:+ cstr) =
    Ok (formatKey proto cstr, None) [] /\
  loggableKey ("/" +:+ proto +:+ "/" +:+ cstr) =
    Ok {[ "key" := formatKey proto cstr ]} [].
Proof.
  intros Hn. pose proof (path_formats proto cstr Hn) as Hf.
  split; [exact Hf|]. unfold loggableKey.
  change ("/" +:+ proto +:+ "/" +:+ cstr)
    with (String "/" (proto +:+ String "/" cstr)).
  by rewrite Hf.
Qed.

(** X2. Whenever [tryFormatLoggableKey] succeeds, the key was either a path
    [/proto/rest] with a slash-free [proto], formatted from exactly these two
    parts, or a key that does not begin with a slash, formatted whole under
    the protocol [provider]: no byte of the key is dropped or read twice. *)
Theorem formatted_key_covers_whole_key k s l :
  tryFormatLoggableKey k = Ok (s, None) l ->
  (exists proto cstr, noSlash proto /\
     k = "/" +:+ proto +:+ "/" +:+ cstr /\ s = formatKey proto cstr) \/
  (exists a t, k = String a t /\ a <> "/"%char /\ s = formatKey "provider" k).
Proof. apply success_shape. Qed.

(** X3. A formatted key is itself a path key: it begins with a slash, its
    protocol part is the one it was formatted with, and formatting it again
    succeeds under the same protocol. *)
Theorem formatted_key_formats_again k s l :
  tryFormatLoggableKey k = Ok (s, None) l ->
  exists proto enc,
    noSlash proto /\ s = "/" +:+ proto +:+ "/" +:+ enc /\
    tryFormatLoggableKey s = Ok (formatKey proto enc, None) [].
Proof.
  intros Hk.
  assert (exists proto cstr, noSlash proto /\ s = formatKey proto cstr)
    as (proto & cstr & Hn & ->).
  { destruct (success_shape k s l Hk)
      as [(proto & cstr & Hn & _ & ->)|(a & t & _ & _ & ->)].
    - by exists proto, cstr.
    - exists "provider", k. split; [apply noSlash_provider | done]. }
  unfold formatKey at 1 2.
  set (enc := match cid_Cast cstr with
              | inl c => cid_String c
              | inr _ => base32_EncodeToString cstr
              end).
  exists proto, enc. split; [exact Hn|]. split; [reflexivity|].
  apply (path_formats proto enc Hn).
Qed.

(** X4. For a provider key that is not a CID, [loggableKey] logs the same
    base32 text as [multihashLoggableKey] does for the same bytes, behind
    [/provider/]. *)
Theorem provider_key_matches_multihash_log a t e :
  a <> "/"%char -> cid_Cast (String a t) = inr e ->
  exists v,
    (multihashLoggableKey (String a t) : gmap string string) !! "multihash"
      = Some v /\
    loggableKey (String a t) = Ok {[ "key" := "/provider/" +:+ v ]} [].
Proof.
  intros Ha Hcid. exists (base32_EncodeToString (String a t)).
  split; [apply lookup_singleton_eq|].
  unfold loggableKey, tryFormatLoggableKey.
  rewrite len_String. pose proof (len_nonneg t).
  destruct (Z.eqb_spec (len t + 1) 0) as [?|_]; [lia|].
  rewrite index_head, bind_ret_l.
  destruct (Ascii.eqb_spec a "/"%char) as [?|_]; [done|].
  unfold formatKey. rewrite Hcid. reflexivity.
Qed.

End LoggableKeyExtras.

(** * More on the lookup *)

Lemma quiet_not_done l : Forall quiet l -> dones l = 0%nat.
Proof.
  induction 1 as [|e l He _ IH]; [done|].
  unfold dones in *. rewrite filter_cons.
  destruct (decide (isDone e)) as [Hd|_]; [by destruct e | exact IH].
Qed.

Lemma dones_app l1 l2 : dones (l1 ++ l2) = (dones l1 + dones l2)%nat.
Proof. unfold dones. by rewrite filter_app, length_app. Qed.

Lemma dones_sends ps : dones (map EvSend ps) = 0%nat.
Proof. induction ps as [|p ps IH]; [done | exact IH]. Qed.

Lemma addressed_sends parent key ps : Forall (addressed parent key) (map EvSend ps).
Proof. induction ps; by constructor. Qed.

(** A closed channel with nothing left to do can be drained to the end,
    whether or not the caller has seen the end before. *)
Lemma reach_drained k b r e :
  (e = true -> b = []) ->
  reach {| todo := []; ch := {| cap := k; buf := b; closed := true |};
           received := r; eos := e |}
        {| todo := []; ch := {| cap := k; buf := []; closed := true |};
           received := r ++ b; eos := true |}.
Proof.
  destruct e.
  - intros ->; [|done]. rewrite app_nil_r. apply reach_here.
  - intros _. apply reach_drain.
Qed.

(** From a state that satisfies [inv], the goroutine can finish and the
    caller can receive all that is left. *)
Lemma inv_can_finish k ps x :
  (Z.of_nat (length ps) <= k)%Z -> inv k ps x ->
  reach x {| todo := []; ch := {| cap := k; buf := []; closed := true |};
             received := ps; eos := true |}.
Proof.
  intros Hk (Hcap & Hps & Hcl & Heos).
  destruct x as [t [k' b cl] r e]; simpl in *. subst k'.
  destruct cl.
  - subst t. simpl in Hps. rewrite app_nil_r in Hps. subst ps.
    apply reach_drained. intros He. by destruct (Heos He).
  - assert (e = false) as -> by (destruct e; [by destruct Heos|done]).
    destruct Hcl as (pre & -> & Hc).
    rewrite sent_app in Hps. simpl in Hps. rewrite app_nil_r in Hps.
    assert (Z.of_nat (length b + length (sent pre)) <= k)%Z as Hroom.
    { apply (f_equal length) in Hps. rewrite !length_app in Hps. lia. }
    eapply reach_trans; [by apply reach_prefix|].
    eapply reach_step_l; [left; by apply pstep_close|].
    unfold close. simpl. rewrite <- Hps.
    apply (reach_drain k (b ++ sent pre) r).
Qed.

Section LookupMore.
Context `{Collaborators}.
Variables (dht : IpfsDHT) (ctx : context) (key : string).

Lemma lookupQueryFunc_addressed c p :
  exists r l, lookupQueryFunc dht ctx key c p = Ok r l /\
    Forall quiet l /\ Forall (addressed ctx key) l.
Proof.
  rewrite lookupQueryFunc_cases.
  destruct (findPeerSingle c p key) as [pmes [e|]]; simpl;
    eexists _, _; (split; [reflexivity|]); split; by repeat constructor.
Qed.

Lemma callAll_addressed calls :
  exists l, callAll (lookupQuery dht ctx key) calls = Ok tt l /\
    Forall quiet l /\ Forall (addressed ctx key) l.
Proof.
  induction calls as [|[c p] calls (l & Hl & Hq & Ha)]; simpl.
  - exists []. by repeat split.
  - destruct (lookupQueryFunc_addressed c p) as (r & l0 & Hr & Hq0 & Ha0).
    exists (l0 ++ l). split; [|split; by apply Forall_app].
    eapply bind_Ok_Ok; [exact Hr | exact Hl].
Qed.

(** The call with seeds and a proper bucket size, with all that is known of
    its events. *)
Lemma GetClosestPeers_runs_fully res e calls :
  lookupSeeds dht key <> [] -> (0 <= bucketSize dht)%Z ->
  lookupRun dht ctx key = ((res, e), calls) ->
  exists l ql, Forall quiet ql /\ Forall (addressed ctx key) ql /\
    GetClosestPeers dht ctx key =
    Ok {| out := Some (fresh (bucketSize dht)); err := None;
          spawned := Some (Ok tt (workerEvents dht ctx key ql res e)) |} l.
Proof.
  intros Hseeds Hk Hrun.
  destruct (GetClosestPeers_runs dht ctx key res e calls Hseeds Hk Hrun)
    as (l & ql & Hquiet & Hcall).
  destruct (lookupWorker_trace dht ctx key res e calls Hk Hrun)
    as (ql' & _ & Hw').
  destruct (callAll_addressed calls) as (ql0 & Hql0 & _ & Ha).
  destruct (GetClosestPeers_cases dht ctx key) as (m & l0 & _ & _ & Heq).
  cbv zeta in Heq. rewrite bool_decide_eq_false_2 in Heq by exact Hseeds.
  destruct (Z.ltb_spec (bucketSize dht) 0) as [?|_]; [lia|].
  rewrite Hcall in Heq. injection Heq as Hw Hl.
  (* the events of the query function are those of [callAll] *)
  assert (ql = ql0) as ->.
  { revert Hw. unfold lookupWorker, runQuery. unfold lookupRun in Hrun.
    rewrite Hrun, Hql0. unfold workerEvents. simpl.
    destruct e as [e|]; destruct res as [[cp [qs|]]|]; simpl;
      rewrite ?truncate_Ok by done; simpl; rewrite ?sendAll_Ok; simpl;
      rewrite ?app_nil_r, <- ?app_assoc; simpl;
      intros [= Heq]; by simplify_list_eq. }
  eexists l, ql0. split; [exact Hquiet|]. split; [exact Ha|]. exact Hcall.
Qed.

End LookupMore.

Ltac run_lookup_fully dht ctx key Hseeds Hk :=
  let Hrun := fresh "Hrun" in
  destruct (lookupRun dht ctx key) as [[res e] calls] eqn:Hrun;
  destruct (GetClosestPeers_runs_fully dht ctx key _ _ _ Hseeds Hk Hrun)
    as (l & ql & Hquiet & Haddr & Hcall).

Section LookupExtras.
Context `{Collaborators}.
Variables (dht : IpfsDHT) (ctx : context) (key : string).

(** X5. With a seed and a negative [bucketSize], [GetClosestPeers] does not
    return: [make] panics. By then the key has been made loggable, the span
    is begun with it and the routing table asked for [AlphaValue] peers; these
    are the last events, and no query is made. *)
Theorem negative_bucket_size_panics :
  lookupSeeds dht key <> [] -> (bucketSize dht < 0)%Z ->
  exists (m : gmap string string) l0,
    loggableKey key = Ok m l0 /\
    GetClosestPeers dht ctx key =
      Panic "makechan: size out of range"
            (l0 ++ [EvEventBegin "getClosestPeers" m;
                    EvNearestPeers (ConvertKey key) AlphaValue]) /\
    Forall (fun e => isQuery e = false)
           (l0 ++ [EvEventBegin "getClosestPeers" m;
                   EvNearestPeers (ConvertKey key) AlphaValue]).
Proof.
  intros Hseeds Hk.
  destruct (GetClosestPeers_cases dht ctx key) as (m & l0 & Hm & Hl0 & Heq).
  cbv zeta in Heq. rewrite bool_decide_eq_false_2 in Heq by exact Hseeds.
  destruct (Z.ltb_spec (bucketSize dht) 0) as [_|?]; [|lia].
  exists m, l0. split; [exact Hm|]. split; [exact Heq|].
  apply Forall_app. split; [|by repeat constructor].
  destruct Hl0 as [->|[e ->]]; by repeat constructor.
Qed.

(** X6. When the queried set has no more than [bucketSize] peers, all of
    them are sent: the peers sent are the queried set, rearranged. *)
Theorem small_queried_set_is_sent_whole r e calls qs :
  lookupSeeds dht key <> [] -> (0 <= bucketSize dht)%Z ->
  lookupRun dht ctx key = ((Some r, e), calls) -> queriedSet r = Some qs ->
  (Z.of_nat (length (Peers qs)) <= bucketSize dht)%Z ->
  exists c l tr,
    GetClosestPeers dht ctx key = Ok c l /\ spawned c = Some (Ok tt tr) /\
    sent tr ≡ₚ Peers qs.
Proof.
  intros Hseeds Hk Hrun Hqs Hlen.
  destruct (GetClosestPeers_runs dht ctx key _ _ _ Hseeds Hk Hrun)
    as (l & ql & Hquiet & Hcall).
  eexists _, l, _. split; [exact Hcall|]. split; [reflexivity|].
  rewrite workerEvents_sent, finalEvents_sent by done. simpl. rewrite Hqs. simpl.
  rewrite take_ge; [apply SortClosestPeers_perm|].
  rewrite SortClosestPeers_perm. lia.
Qed.

(** X7. The peers sent are peers of the queried set, and the closest of
    them: a queried peer that is not sent is at least as far from the key as
    every peer that is sent. *)
Theorem sent_peers_are_the_closest r e calls qs :
  lookupSeeds dht key <> [] -> (0 <= bucketSize dht)%Z ->
  lookupRun dht ctx key = ((Some r, e), calls) -> queriedSet r = Some qs ->
  exists c l tr,
    GetClosestPeers dht ctx key = Ok c l /\ spawned c = Some (Ok tt tr) /\
    (forall p, p ∈ sent tr -> p ∈ Peers qs) /\
    (forall p q, p ∈ sent tr -> q ∈ Peers qs -> q ∉ sent tr ->
                 closerEq (ConvertKey key) p q).
Proof.
  intros Hseeds Hk Hrun Hqs.
  destruct (GetClosestPeers_runs dht ctx key _ _ _ Hseeds Hk Hrun)
    as (l & ql & Hquiet & Hcall).
  eexists _, l, _. split; [exact Hcall|]. split; [reflexivity|].
  rewrite workerEvents_sent, finalEvents_sent by done. simpl. rewrite Hqs. simpl.
  set (sorted := SortClosestPeers (Peers qs) (ConvertKey key)).
  set (n := Z.to_nat (bucketSize dht)).
  split.
  - intros p Hp. rewrite <- (SortClosestPeers_perm (Peers qs) (ConvertKey key)).
    eapply elem_of_prefix; [exact Hp | apply prefix_take].
  - intros p q Hp Hq Hnq.
    pose proof (SortClosestPeers_sorted (Peers qs) (ConvertKey key)) as Hs.
    fold sorted in Hs. rewrite <- (take_drop n sorted) in Hs.
    apply (StronglySorted_app_1_elem_of _ _ _ _ _ Hs Hp).
    rewrite <- (SortClosestPeers_perm (Peers qs) (ConvertKey key)) in Hq.
    fold sorted in Hq. rewrite <- (take_drop n sorted), elem_of_app in Hq.
    by destruct Hq.
Qed.

(** X8. At every moment of every execution, the peers the caller has
    received, those waiting in the buffer and those the goroutine has still
    to send make up the sequence sent, in this order: a caller that stops
    reading early has received a prefix of it, closest peers first, and no
    peer is lost, repeated or overtaken. *)
Theorem channel_keeps_order_at_all_times :
  lookupSeeds dht key <> [] -> (0 <= bucketSize dht)%Z ->
  exists c0 l tr,
    GetClosestPeers dht ctx key =
    Ok {| out := Some c0; err := None; spawned := Some (Ok tt tr) |} l /\
    forall x, reach (start tr c0) x ->
      received x ++ buf (ch x) ++ sent (todo x) = sent tr /\
      received x `prefix_of` sent tr.
Proof.
  intros Hseeds Hk. run_lookup dht ctx key Hseeds Hk.
  set (tr := workerEvents dht ctx key ql res e) in *.
  exists (fresh (bucketSize dht)), l, tr. split; [exact Hcall|].
  intros x Hx.
  assert (inv (bucketSize dht) (sent tr) x) as (_ & Hps & _).
  { eapply inv_reach; [apply inv_start|exact Hx];
      [by apply workerEvents_closesLast | done]. }
  split; [exact Hps|]. by eexists.
Qed.

(** X9. No execution gets stuck: from every state the goroutine and the
    caller can reach, the state in which all peers are received, the channel
    is closed and empty and the caller has seen the end can still be
    reached. *)
Theorem delivery_stays_reachable :
  lookupSeeds dht key <> [] -> (0 <= bucketSize dht)%Z ->
  exists c0 l tr,
    GetClosestPeers dht ctx key =
    Ok {| out := Some c0; err := None; spawned := Some (Ok tt tr) |} l /\
    forall x, reach (start tr c0) x ->
      reach x {| todo := []; ch := close c0; received := sent tr; eos := true |}.
Proof.
  intros Hseeds Hk. run_lookup dht ctx key Hseeds Hk.
  set (tr := workerEvents dht ctx key ql res e) in *.
  exists (fresh (bucketSize dht)), l, tr. split; [exact Hcall|].
  intros x Hx. apply inv_can_finish.
  - subst tr. rewrite workerEvents_sent, finalEvents_sent by done.
    destruct (queriedPeers res); simpl; [rewrite length_take|]; lia.
  - eapply inv_reach; [apply inv_start|exact Hx];
      [by apply workerEvents_closesLast | done].
Qed.

(** X10. Nothing is sent while the query runs. The events of the goroutine
    are: the run with all its peer queries, the log of its error and the
    refresh signal, none of which touches the channel; then all the sends,
    one after the other; then the deferred calls in reverse order of their
    [defer]: [cancel], [e.Done] and [close]. *)
Theorem sends_follow_the_whole_run :
  lookupSeeds dht key <> [] -> (0 <= bucketSize dht)%Z ->
  exists c l tr pre,
    GetClosestPeers dht ctx key = Ok c l /\ spawned c = Some (Ok tt tr) /\
    tr = pre ++ map EvSend (sent tr) ++ [EvCancel; EvEventDone; EvClose] /\
    Forall (fun e => chanOp e = false) pre /\
    runs pre = [(WithTimeout ctx Minute, lookupSeeds dht key)] /\
    resets pre = resets tr.
Proof.
  intros Hseeds Hk. run_lookup dht ctx key Hseeds Hk.
  destruct (quiet_silent ql Hquiet) as (Hs & _ & Hr & Hu & Hf).
  destruct (quiet_silent _ (runErrorLog_quiet e)) as (Hs' & _ & Hr' & Hu' & Hf').
  set (first := match queriedPeers res with
                | Some _ => [EvResetCpl (ConvertKey key) time_Now]
                | None => []
                end).
  assert (finalEvents dht key res
          = first ++ map EvSend (sent (finalEvents dht key res))) as Hfin.
  { subst first. destruct res as [[cp [qs|]]|]; simpl; try done.
    by rewrite sent_sends. }
  eexists _, l, _,
    (EvRun (WithTimeout ctx Minute) (lookupSeeds dht key) :: ql ++
     runErrorLog e ++ first).
  split; [exact Hcall|]. split; [reflexivity|].
  rewrite workerEvents_sent, workerEvents_resets by done.
  split; [|split; [|split]].
  - unfold workerEvents. rewrite Hfin at 1. simpl.
    by rewrite <- !app_assoc.
  - constructor; [done|]. rewrite !Forall_app. split; [done|]. split; [done|].
    subst first. destruct (queriedPeers res); by repeat constructor.
  - unfold runs in *. simpl. rewrite !omap_app, Hu, Hu'.
    subst first. by destruct (queriedPeers res).
  - rewrite finalEvents_resets. unfold resets in *. simpl.
    rewrite !omap_app, Hr, Hr'. subst first. by destruct (queriedPeers res).
Qed.

(** X11. Every call begins the logging span once and does not end it
    itself. The span is ended, once, by the goroutine; a call that returns
    [kb.ErrLookupFailure] starts no goroutine and leaves its span open. *)
Theorem span_is_ended_only_by_the_goroutine :
  begins (events (GetClosestPeers dht ctx key)) = 1%nat /\
  dones (events (GetClosestPeers dht ctx key)) = 0%nat /\
  match GetClosestPeers dht ctx key with
  | Ok c _ =>
      match spawned c with
      | Some g => err c = None /\ dones (events g) = 1%nat
      | None => err c = Some ErrLookupFailure
      end
  | Panic _ _ => True
  end.
Proof.
  destruct (GetClosestPeers_cases dht ctx key) as (m & l0 & _ & Hl0 & Heq).
  cbv zeta in Heq.
  assert (begins (l0 ++ [EvEventBegin "getClosestPeers" m;
                         EvNearestPeers (ConvertKey key) AlphaValue]) = 1%nat
          /\ dones (l0 ++ [EvEventBegin "getClosestPeers" m;
                           EvNearestPeers (ConvertKey key) AlphaValue]) = 0%nat)
    as [Hb Hd] by (by destruct Hl0 as [->|[e0 ->]]).
  rewrite Heq.
  destruct (decide (lookupSeeds dht key = [])) as [Hnil|Hseeds].
  { rewrite bool_decide_eq_true_2 by done. by repeat split. }
  rewrite bool_decide_eq_false_2 by done.
  destruct (Z.ltb_spec (bucketSize dht) 0) as [?|Hk]; [by repeat split|].
  split; [exact Hb|]. split; [exact Hd|]. simpl. split; [done|].
  destruct (lookupRun dht ctx key) as [[res e] calls] eqn:Hrun.
  destruct (lookupWorker_trace dht ctx key res e calls Hk Hrun)
    as (ql & Hquiet & ->).
  simpl. unfold workerEvents.
  change (EvRun ?c ?s :: ?t) with ([EvRun c s] ++ t).
  rewrite !dones_app, (quiet_not_done _ Hquiet),
    (quiet_not_done _ (runErrorLog_quiet e)).
  destruct res as [[cp [qs|]]|]; simpl; try done.
  change (dones (EvResetCpl ?a ?t :: ?s)) with (dones s).
  by rewrite dones_sends.
Qed.

(** X12. Every query event of the lookup is published to the context of
    the caller, not to the context the runner hands to the query function,
    and every RPC asks for the key itself. *)
Theorem query_events_go_to_the_caller :
  lookupSeeds dht key <> [] -> (0 <= bucketSize dht)%Z ->
  exists c l tr,
    GetClosestPeers dht ctx key = Ok c l /\ spawned c = Some (Ok tt tr) /\
    Forall (addressed ctx key) tr.
Proof.
  intros Hseeds Hk. run_lookup_fully dht ctx key Hseeds Hk.
  eexists _, l, _. split; [exact Hcall|]. split; [reflexivity|].
  unfold workerEvents. constructor; [done|].
  rewrite !Forall_app. split; [exact Haddr|]. split.
  - destruct e; by repeat constructor.
  - split; [|by repeat constructor].
    destruct res as [[cp [qs|]]|]; simpl; try by constructor.
    constructor; [done | apply addressed_sends].
Qed.

(** X13. Whatever becomes of the call, its own events are the debug log of
    an unformattable key, the beginning of the span, which carries the key,
    and the question to the routing table: the call itself queries no peer,
    sends no refresh signal and does not touch the channel. All of that is
    left to the goroutine. *)
Theorem call_returns_before_the_run :
  exists (m : gmap string string) v l0,
    events (GetClosestPeers dht ctx key) =
      l0 ++ [EvEventBegin "getClosestPeers" m;
             EvNearestPeers (ConvertKey key) AlphaValue] /\
    m !! "key" = Some v /\ (l0 = [] \/ exists e, l0 = [EvDebug e]) /\
    Forall (fun e => isQuery e = false /\ chanOp e = false)
           (events (GetClosestPeers dht ctx key)) /\
    resets (events (GetClosestPeers dht ctx key)) = [].
Proof.
  destruct (GetClosestPeers_cases dht ctx key) as (m & l0 & Hm & Hl0 & Heq).
  cbv zeta in Heq.
  assert (exists v, m !! "key" = Some v) as [v Hv].
  { revert Hm. unfold loggableKey.
    destruct (tryFormatLoggableKey_returns key) as (s & oe & -> & _).
    destruct oe as [e|]; simpl; intros [= <- _]; eexists;
      apply lookup_singleton_eq. }
  assert (events (GetClosestPeers dht ctx key) =
          l0 ++ [EvEventBegin "getClosestPeers" m;
                 EvNearestPeers (ConvertKey key) AlphaValue]) as Hev.
  { rewrite Heq. destruct (bool_decide _); [done|].
    by destruct (bucketSize dht <? 0)%Z. }
  exists m, v, l0. rewrite Hev. split; [done|]. split; [done|].
  split; [done|]. destruct Hl0 as [->|[e ->]]; split; by repeat constructor.
Qed.

End LookupExtras.

(** * More of the small network *)

Section MoreOnTheNetwork.
#[local] Existing Instance Net.net.

Lemma noSlash_ipfs : noSlash "ipfs".
Proof. repeat (apply noSlash_cons; split; [done|]). by intros [|i]. Qed.

Lemma dht2_seeded : lookupSeeds Net.dht2 "K" <> [].
Proof. rewrite dht2_seeds. done. Qed.

Lemma dht2_sized : (0 <= bucketSize Net.dht2)%Z.
Proof. simpl. lia. Qed.

Lemma path_key_is_split_at_second_slash_witness :
  noSlash "ipfs" /\
  tryFormatLoggableKey ("/" +:+ "ipfs" +:+ "/" +:+ "a/b") =
    Ok (formatKey "ipfs" "a/b", None) [] /\
  loggableKey ("/" +:+ "ipfs" +:+ "/" +:+ "a/b") =
    Ok {[ "key" := formatKey "ipfs" "a/b" ]} [].
Proof.
  split; [exact noSlash_ipfs|].
  exact (path_key_is_split_at_second_slash "ipfs" "a/b" noSlash_ipfs).
Defined.

Lemma formatted_key_covers_whole_key_witness :
  tryFormatLoggableKey "/ipfs/a/b" = Ok ("/ipfs/a/b", None) [] /\
  ((exists proto cstr, noSlash proto /\
      "/ipfs/a/b" = "/" +:+ proto +:+ "/" +:+ cstr /\
      "/ipfs/a/b" = formatKey proto cstr) \/
   (exists a t, "/ipfs/a/b" = String a t /\ a <> "/"%char /\
      "/ipfs/a/b" = formatKey "provider" "/ipfs/a/b")).
Proof.
  split; [reflexivity|].
  exact (formatted_key_covers_whole_key "/ipfs/a/b" "/ipfs/a/b" [] eq_refl).
Defined.

Lemma formatted_key_formats_again_witness :
  tryFormatLoggableKey "Qm" = Ok ("/provider/Qm", None) [] /\
  exists proto enc,
    noSlash proto /\ "/provider/Qm" = "/" +:+ proto +:+ "/" +:+ enc /\
    tryFormatLoggableKey "/provider/Qm" = Ok (formatKey proto enc, None) [].
Proof.
  split; [reflexivity|].
  exact (formatted_key_formats_again "Qm" "/provider/Qm" [] eq_refl).
Defined.

Lemma provider_key_matches_multihash_log_witness :
  "Q"%char <> "/"%char /\
  cid_Cast (String "Q" "m") = inr (ErrOther "not a cid") /\
  exists v,
    (multihashLoggableKey (String "Q" "m") : gmap string string) !! "multihash"
      = Some v /\
    loggableKey (String "Q" "m") = Ok {[ "key" := "/provider/" +:+ v ]} [].
Proof.
  assert ("Q"%char <> "/"%char) as Ha by done.
  split; [exact Ha|]. split; [reflexivity|].
  exact (provider_key_matches_multihash_log "Q" "m" (ErrOther "not a cid")
           Ha eq_refl).
Defined.

Lemma negative_bucket_size_panics_witness :
  lookupSeeds (Net.node ["P1"] (-1)) "K" <> [] /\
  (bucketSize (Net.node ["P1"] (-1)) < 0)%Z /\
  exists (m : gmap string string) l0,
    loggableKey "K" = Ok m l0 /\
    GetClosestPeers (Net.node ["P1"] (-1)) Net.caller "K" =
      Panic "makechan: size out of range"
            (l0 ++ [EvEventBegin "getClosestPeers" m;
                    EvNearestPeers (ConvertKey "K") AlphaValue]) /\
    Forall (fun e => isQuery e = false)
           (l0 ++ [EvEventBegin "getClosestPeers" m;
                   EvNearestPeers (ConvertKey "K") AlphaValue]).
Proof.
  assert (lookupSeeds (Net.node ["P1"] (-1)) "K" <> []) as Hs
    by (change (lookupSeeds (Net.node ["P1"] (-1)) "K") with ["P1"]; done).
  assert (bucketSize (Net.node ["P1"] (-1)) < 0)%Z as Hk by (simpl; lia).
  split; [exact Hs|]. split; [exact Hk|].
  exact (negative_bucket_size_panics (Net.node ["P1"] (-1)) Net.caller "K"
           Hs Hk).
Defined.

Lemma small_queried_set_is_sent_whole_witness :
  lookupSeeds Net.dht2 "K" <> [] /\ (0 <= bucketSize Net.dht2)%Z /\
  (Z.of_nat (length ["P1"; "P3"]) <= bucketSize Net.dht2)%Z /\
  exists c l tr,
    GetClosestPeers Net.dht2 Net.caller "K" = Ok c l /\
    spawned c = Some (Ok tt tr) /\ sent tr ≡ₚ ["P1"; "P3"].
Proof.
  assert (Z.of_nat (length ["P1"; "P3"]) <= bucketSize Net.dht2)%Z as Hlen
    by (simpl; lia).
  split; [exact dht2_seeded|]. split; [exact dht2_sized|]. split; [exact Hlen|].
  exact (small_queried_set_is_sent_whole Net.dht2 Net.caller "K" _ _ _
           {| Peers := ["P1"; "P3"] |} dht2_seeded dht2_sized dht2_run
           eq_refl Hlen).
Defined.

Lemma sent_peers_are_the_closest_witness :
  lookupSeeds (Net.node ["P1"; "P2"] 1) "K" <> [] /\
  (0 <= bucketSize (Net.node ["P1"; "P2"] 1))%Z /\
  exists c l tr,
    GetClosestPeers (Net.node ["P1"; "P2"] 1) Net.caller "K" = Ok c l /\
    spawned c = Some (Ok tt tr) /\
    (forall p, p ∈ sent tr -> p ∈ ["P1"; "P3"]) /\
    (forall p q, p ∈ sent tr -> q ∈ ["P1"; "P3"] -> q ∉ sent tr ->
                 closerEq (ConvertKey "K") p q).
Proof.
  assert (lookupSeeds (Net.node ["P1"; "P2"] 1) "K" <> []) as Hs
    by (change (lookupSeeds (Net.node ["P1"; "P2"] 1) "K") with ["P1"; "P2"];
        done).
  assert (0 <= bucketSize (Net.node ["P1"; "P2"] 1))%Z as Hk by (simpl; lia).
  split; [exact Hs|]. split; [exact Hk|].
  exact (sent_peers_are_the_closest (Net.node ["P1"; "P2"] 1) Net.caller "K"
           {| closerPeers := []; queriedSet := Some {| Peers := ["P1"; "P3"] |} |}
           None _ {| Peers := ["P1"; "P3"] |} Hs Hk eq_refl eq_refl).
Defined.

Lemma channel_keeps_order_at_all_times_witness :
  lookupSeeds Net.dht2 "K" <> [] /\ (0 <= bucketSize Net.dht2)%Z /\
  exists c0 l tr,
    GetClosestPeers Net.dht2 Net.caller "K" =
    Ok {| out := Some c0; err := None; spawned := Some (Ok tt tr) |} l /\
    forall x, reach (start tr c0) x ->
      received x ++ buf (ch x) ++ sent (todo x) = sent tr /\
      received x `prefix_of` sent tr.
Proof.
  split; [exact dht2_seeded|]. split; [exact dht2_sized|].
  exact (channel_keeps_order_at_all_times Net.dht2 Net.caller "K"
           dht2_seeded dht2_sized).
Defined.

Lemma delivery_stays_reachable_witness :
  lookupSeeds Net.dht2 "K" <> [] /\ (0 <= bucketSize Net.dht2)%Z /\
  exists c0 l tr,
    GetClosestPeers Net.dht2 Net.caller "K" =
    Ok {| out := Some c0; err := None; spawned := Some (Ok tt tr) |} l /\
    forall x, reach (start tr c0) x ->
      reach x {| todo := []; ch := close c0; received := sent tr; eos := true |}.
Proof.
  split; [exact dht2_seeded|]. split; [exact dht2_sized|].
  exact (delivery_stays_reachable Net.dht2 Net.caller "K"
           dht2_seeded dht2_sized).
Defined.

Lemma sends_follow_the_whole_run_witness :
  lookupSeeds Net.dht2 "K" <> [] /\ (0 <= bucketSize Net.dht2)%Z /\
  exists c l tr pre,
    GetClosestPeers Net.dht2 Net.caller "K" = Ok c l /\
    spawned c = Some (Ok tt tr) /\
    tr = pre ++ map EvSend (sent tr) ++ [EvCancel; EvEventDone; EvClose] /\
    Forall (fun e => chanOp e = false) pre /\
    runs pre = [(WithTimeout Net.caller Minute, lookupSeeds Net.dht2 "K")] /\
    resets pre = resets tr.
Proof.
  split; [exact dht2_seeded|]. split; [exact dht2_sized|].
  exact (sends_follow_the_whole_run Net.dht2 Net.caller "K"
           dht2_seeded dht2_sized).
Defined.

Lemma query_events_go_to_the_caller_witness :
  lookupSeeds Net.dht2 "K" <> [] /\ (0 <= bucketSize Net.dht2)%Z /\
  exists c l tr,
    GetClosestPeers Net.dht2 Net.caller "K" = Ok c l /\
    spawned c = Some (Ok tt tr) /\
    Forall (addressed Net.caller "K") tr.
Proof.
  split; [exact dht2_seeded|]. split; [exact dht2_sized|].
  exact (query_events_go_to_the_caller Net.dht2 Net.caller "K"
           dht2_seeded dht2_sized).
Defined.

End MoreOnTheNetwork.
